(** * Verification of the link-resolution engine of [ab_links_solver.py]

    Python [str] values are modelled as lists of characters whose code
    points lie in U+0000..U+00FF (Rocq's [ascii]).  The regular
    expressions of the source are written as terms of a small
    backtracking matcher that follows Python's [re] semantics for the
    constructs they use: literals (optionally case-insensitive),
    character classes, greedy repetitions of a class, greedy optional
    groups and one capturing group. *)

From Stdlib Require Import List Ascii String Bool Arith Lia ZArith.
From Stdlib Require Import Permutation Sorted QArith_base Qminmax.
Import ListNotations.
Open Scope string_scope.
Open Scope nat_scope.
Open Scope list_scope.

Abbreviation str := (list ascii).
Coercion list_ascii_of_string : string >-> list.

Definition str_eqb (a b : str) : bool :=
  if list_eq_dec ascii_dec a b then true else false.

Lemma str_eqb_eq (a b : str) : str_eqb a b = true <-> a = b.
Proof. unfold str_eqb; destruct (list_eq_dec ascii_dec a b); split; congruence. Qed.

(** ** Characters *)

(** [\s] on a [str] pattern: Unicode whitespace restricted to U+0000..U+00FF. *)
Definition is_space (c : ascii) : bool :=
  let n := nat_of_ascii c in
  ((9 <=? n) && (n <=? 13)) || ((28 <=? n) && (n <=? 32))
  || (n =? 133) || (n =? 160).

(** [\d]: the decimal digits of U+0000..U+00FF are 0-9. *)
Definition is_digit (c : ascii) : bool :=
  let n := nat_of_ascii c in (48 <=? n) && (n <=? 57).

Definition is_alnum (c : ascii) : bool :=
  let n := nat_of_ascii c in
  ((65 <=? n) && (n <=? 90)) || ((97 <=? n) && (n <=? 122)) || is_digit c.

(** [.] without DOTALL: any character but a newline. *)
Definition not_newline (c : ascii) : bool := negb (nat_of_ascii c =? 10).

Definition is_quote (c : ascii) : bool :=
  (nat_of_ascii c =? 34) || (nat_of_ascii c =? 39).

(** Case folding used by [re.IGNORECASE] on the pattern literals (ASCII). *)
Definition lower (c : ascii) : ascii :=
  let n := nat_of_ascii c in
  if (65 <=? n) && (n <=? 90) then ascii_of_nat (n + 32) else c.

Definition char_eqb (ic : bool) (c x : ascii) : bool :=
  if ic then Ascii.eqb (lower c) (lower x) else Ascii.eqb c x.

(** ** A backtracking matcher for the patterns of the source *)

Inductive rx : Type :=
| REps                               (* empty pattern *)
| RLit (c : ascii)                   (* a literal character *)
| RChr (p : ascii -> bool)           (* a character class *)
| RSeq (a b : rx)                    (* concatenation *)
| RStar (p : ascii -> bool) (min : nat)  (* greedy  [p]{min,} *)
| ROpt (a : rx)                      (* greedy  (?:a)? *)
| RCap (a : rx).                     (* capturing group 1 *)

Fixpoint run_length (p : ascii -> bool) (s : str) : nat :=
  match s with
  | [] => 0
  | c :: t => if p c then S (run_length p t) else 0
  end.

(** Greedy repetition: try [i] repetitions, then [i-1], ... down to [min]. *)
Fixpoint greedy_try {T} (i min : nat) (f : nat -> option T) : option T :=
  if i <? min then None else
  match f i with
  | Some x => Some x
  | None => match i with 0 => None | S j => greedy_try j min f end
  end.

(** [m ic r s cap k]: match [r] at the front of [s] with the current
    capture [cap]; [k] is the rest of the pattern (backtracking point). *)
Fixpoint m {T} (ic : bool) (r : rx) (s : str) (cap : option str)
  (k : str -> option str -> option T) : option T :=
  match r with
  | REps => k s cap
  | RLit c => match s with
              | x :: t => if char_eqb ic c x then k t cap else None
              | [] => None
              end
  | RChr p => match s with
              | x :: t => if p x then k t cap else None
              | [] => None
              end
  | RSeq a b => m ic a s cap (fun s' cap' => m ic b s' cap' k)
  | RStar p mn => greedy_try (run_length p s) mn (fun i => k (skipn i s) cap)
  | ROpt a => match m ic a s cap k with
              | Some x => Some x
              | None => k s cap
              end
  | RCap a => m ic a s cap
                (fun s' _ => k s' (Some (firstn (List.length s - List.length s') s)))
  end.

(** [re.match(pattern, s, flags)]: anchored at the start; the match
    object is represented by its group 1 (None when it did not take part). *)
Definition re_match (ic : bool) (r : rx) (s : str) : option (option str) :=
  m ic r s None (fun _ cap => Some cap).

(** [re.search(pattern, s)]: the leftmost starting position that matches. *)
Fixpoint re_search (r : rx) (s : str) : option (option str) :=
  match m false r s None (fun _ cap => Some cap) with
  | Some g => Some g
  | None => match s with [] => None | _ :: t => re_search r t end
  end.

Fixpoint lits (w : str) : rx :=
  match w with
  | [] => REps
  | [c] => RLit c
  | c :: t => RSeq (RLit c) (lits t)
  end.

Fixpoint seqs (l : list rx) : rx :=
  match l with
  | [] => REps
  | [r] => r
  | r :: t => RSeq r (seqs t)
  end.

(** ** Service patterns ([self.service_patterns]) *)

(** [https?://(?:www\.)?] *)
Definition scheme : rx :=
  seqs [lits "http"; ROpt (RLit "s"%char); lits "://"; ROpt (lits "www.")].

(** Every service pattern is [scheme] and a host literal, then a tail. *)
Definition host_pat (host : str) (tail : rx) : rx :=
  RSeq (RSeq scheme (lits host)) tail.

(** [\d+/(.+)] *)
Definition digits_slash_rest : rx :=
  seqs [RStar is_digit 1; RLit "/"%char; RCap (RStar not_newline 1)].

Definition service_patterns : list (str * list rx) :=
  [ (("adfly" : str),
      [ host_pat "adf.ly/" digits_slash_rest;          (* adf\.ly/\d+/(.+) *)
        host_pat "adfoc.us/" digits_slash_rest ]);     (* adfoc\.us/\d+/(.+) *)
    (("linkvertise" : str),
      [ host_pat "linkvertise.com/"                    (* linkvertise\.com/(?:\d+/)?(.+) *)
          (RSeq (ROpt (RSeq (RStar is_digit 1) (RLit "/"%char)))
                (RCap (RStar not_newline 1)));
        host_pat "link-to.net/" digits_slash_rest ]);  (* link-to\.net/\d+/(.+) *)
    (("gyanilinks" : str),
      [ host_pat "gyanilinks.com/" digits_slash_rest ]);
    (("shortconnect" : str),
      [ host_pat "shortconnect.com/" (RStar is_alnum 1) ]) ].  (* [A-Za-z0-9]+ *)

Definition unknown : str := "unknown".

Definition pattern_matches (p : rx) (url : str) : bool :=
  match re_match true p url with Some _ => true | None => false end.

(** [detect_service]: services in dict (insertion) order, the patterns of
    each in list order, [re.match(pattern, url, re.IGNORECASE)]. *)
Fixpoint detect_loop (sp : list (str * list rx)) (url : str) : str :=
  match sp with
  | [] => unknown
  | (service, patterns) :: rest =>
      if existsb (fun p => pattern_matches p url) patterns then service
      else detect_loop rest url
  end.

Definition detect_service (url : str) : str := detect_loop service_patterns url.

Example detect_ex1 : detect_service "https://adf.ly/1234567/https://example.com" = "adfly".
Proof. vm_compute. reflexivity. Qed.
Example detect_ex2 : detect_service "https://linkvertise.com/1234567/example" = "linkvertise".
Proof. vm_compute. reflexivity. Qed.
Example detect_ex3 : detect_service "https://gyanilinks.com/1234567/example" = "gyanilinks".
Proof. vm_compute. reflexivity. Qed.
Example detect_ex4 : detect_service "HTTPS://WWW.ShortConnect.com/abc123" = "shortconnect".
Proof. vm_compute. reflexivity. Qed.
Example detect_ex5 : detect_service "https://example.com/unknown" = "unknown".
Proof. vm_compute. reflexivity. Qed.
Example detect_ex6 : detect_service "https://j.gs/1234567/link" = "unknown".
Proof. vm_compute. reflexivity. Qed.
Example detect_ex7 : detect_service "https://adf.ly/12/" = "unknown".
Proof. vm_compute. reflexivity. Qed.

(** ** Exceptions, responses and the effect monad *)

(** Python exceptions that reach the code: [requests.exceptions.RequestException]
    (transport errors, and [HTTPError] from [raise_for_status]) and any other
    [Exception].  [str(e)] is the message. *)
Inductive exn : Type :=
| RequestException (msg : str)
| OtherException (msg : str).

Definition exn_str (e : exn) : str :=
  match e with RequestException s => s | OtherException s => s end.

Record Response : Type := mkResponse {
  status_code : Z;
  resp_url : str;        (* [response.url]: the final URL after redirects *)
  text : str }.

(** [Response.ok] (and so [bool(response)]): [raise_for_status] does not raise. *)
Definition resp_ok (r : Response) : bool :=
  negb ((400 <=? status_code r)%Z && (status_code r <? 600)%Z).

(** What one call of [self.session.get] does in the outside world. *)
Inductive net_outcome : Type :=
| NetResponse (r : Response)
| NetRaise (e : exn).

(** Observable effects: [session.get(url, allow_redirects=.., timeout=..)]
    and [time.sleep(secs)]. *)
Inductive event : Type :=
| EGet (url : str) (allow_redirects : bool) (timeout : Z)
| ESleep (secs : Z).

Record st : Type := mkst {
  st_calls : nat;         (* number of session calls made so far *)
  st_time : nat;          (* number of [time.time()] reads so far *)
  st_trace : list event }.

Definition st0 : st := mkst 0 0 [].

Inductive outcome (A : Type) : Type :=
| Ok (a : A)
| Exc (e : exn).
Arguments Ok {A} a.
Arguments Exc {A} e.

Definition M (A : Type) : Type := st -> outcome A * st.

Definition ret {A} (a : A) : M A := fun s => (Ok a, s).
Definition raise {A} (e : exn) : M A := fun s => (Exc e, s).
Definition bind {A B} (c : M A) (f : A -> M B) : M B :=
  fun s => match c s with
           | (Ok a, s') => f a s'
           | (Exc e, s') => (Exc e, s')
           end.

Notation "x <- c ;; k" := (bind c (fun x => k))
  (at level 61, c at next level, right associativity).
Notation "c ;;; k" := (bind c (fun _ => k)) (at level 61, right associativity).

(** [try: c  except <handled>: h] *)
Definition try_except {A} (handles : exn -> bool) (c : M A) (h : exn -> M A) : M A :=
  fun s => match c s with
           | (Ok a, s') => (Ok a, s')
           | (Exc e, s') => if handles e then h e s' else (Exc e, s')
           end.

Definition is_request_exception (e : exn) : bool :=
  match e with RequestException _ => true | OtherException _ => false end.

(** [except Exception]: every modelled exception. *)
Definition is_exception (_ : exn) : bool := true.

Definition emit (e : event) : M unit :=
  fun s => (Ok tt, mkst (st_calls s) (st_time s) (st_trace s ++ [e])).

Definition sleep (secs : Z) : M unit := emit (ESleep secs).

Section Solver.

(** The outside world: the outcome of the [n]-th session call, and the
    value returned by the [n]-th call of [time.time()]. *)
Variable net : nat -> str -> bool -> net_outcome.
Variable clock : nat -> Z.
(** [self.max_retries] *)
Variable max_retries : nat.

Definition session_get (url : str) (allow_redirects : bool) (timeout : Z)
  : M Response :=
  fun s =>
    let s' := mkst (S (st_calls s)) (st_time s)
                   (st_trace s ++ [EGet url allow_redirects timeout]) in
    match net (st_calls s) url allow_redirects with
    | NetResponse r => (Ok r, s')
    | NetRaise e => (Exc e, s')
    end.

Definition time_time : M Z :=
  fun s => (Ok (clock (st_time s)), mkst (st_calls s) (S (st_time s)) (st_trace s)).

Definition raise_for_status (r : Response) : M unit :=
  if resp_ok r then ret tt
  else raise (RequestException "HTTPError").

(** One attempt of [safe_request]: the body of the [try].  The random
    User-Agent header does not influence any claim and is not modelled;
    [timeout] defaults to 30 as no caller passes one. *)
Definition attempt_once (url : str) (allow_redirects : bool) : M Response :=
  response <- session_get url allow_redirects 30 ;;
  raise_for_status response ;;;
  ret response.

(** [for attempt in range(self.max_retries)]: [remaining] iterations left. *)
Fixpoint safe_request_loop (url : str) (allow_redirects : bool)
  (attempt remaining : nat) : M (option Response) :=
  match remaining with
  | 0 => ret None
  | S remaining' =>
      try_except is_request_exception
        (r <- attempt_once url allow_redirects ;; ret (Some r))
        (fun _ =>
           if attempt =? max_retries - 1 then ret None
           else sleep (2 ^ Z.of_nat attempt) ;;;
                safe_request_loop url allow_redirects (S attempt) remaining')
  end.

Definition safe_request (url : str) (allow_redirects : bool) : M (option Response) :=
  safe_request_loop url allow_redirects 0 max_retries.

(** [bool(response)] for [Optional[Response]]. *)
Definition truthy (r : option Response) : bool :=
  match r with Some resp => resp_ok resp | None => false end.

(** ** AdFly extraction *)

Definition not_quote (c : ascii) : bool := negb (is_quote c).

(** [var\s+ysmm\s*=\s*] Q [(] [^]Q [+)] Q, where Q is the class of the
    double and the single quote character. *)
Definition ysmm_pattern1 : rx :=
  seqs [lits "var"; RStar is_space 1; lits "ysmm"; RStar is_space 0; RLit "="%char;
        RStar is_space 0; RChr is_quote; RCap (RStar not_quote 1); RChr is_quote].

(** [ysmm\s*=\s*] Q [(] [^]Q [+)] Q, with Q as above. *)
Definition ysmm_pattern2 : rx :=
  seqs [lits "ysmm"; RStar is_space 0; RLit "="%char;
        RStar is_space 0; RChr is_quote; RCap (RStar not_quote 1); RChr is_quote].

Definition ysmm_patterns : list rx := [ysmm_pattern1; ysmm_pattern2].

(** The class [^\s<>] without the two quote characters. *)
Definition url_char (c : ascii) : bool :=
  negb (is_space c || (nat_of_ascii c =? 60) || (nat_of_ascii c =? 62) || is_quote c).

(** [(https?://] followed by one or more [url_char] and [)]. *)
Definition url_pattern : rx :=
  RCap (seqs [lits "http"; ROpt (RLit "s"%char); lits "://"; RStar url_char 1]).

(** The descramble loop:
    [for i in range(len(ysmm)): if i % 2 == 0: decoded += ysmm[i]
                                 else: decoded = ysmm[i] + decoded] *)
Fixpoint descramble_loop (i : nat) (rest decoded : str) : str :=
  match rest with
  | [] => decoded
  | c :: rest' =>
      descramble_loop (S i) rest'
        (if Nat.even i then decoded ++ [c] else c :: decoded)
  end.

Definition descramble (ysmm : str) : str := descramble_loop 0 ysmm [].

(** [for pattern in patterns: match = re.search(pattern, html); if match: ...]
    A pattern whose decoded token holds no URL falls through to the next. *)
Fixpoint adfly_patterns_loop (patterns : list rx) (html : str) : option str :=
  match patterns with
  | [] => None
  | pattern :: rest =>
      match re_search pattern html with
      | Some (Some ysmm) =>
          let decoded := descramble ysmm in
          match re_search url_pattern decoded with
          | Some (Some u) => Some u
          | _ => adfly_patterns_loop rest html
          end
      | _ => adfly_patterns_loop rest html
      end
  end.

Definition extract_adfly_link (url : str) : M (option str) :=
  try_except is_exception
    (response <- safe_request url false ;;
     if negb (truthy response) then ret None
     else match response with
          | Some r => ret (adfly_patterns_loop ysmm_patterns (text r))
          | None => ret None
          end)
    (fun _ => ret None).

(** ** Linkvertise extraction (redirect follow) *)

Definition extract_linkvertise_link (url : str) : M (option str) :=
  try_except is_exception
    (response <- safe_request url true ;;
     match response with
     | Some r => if resp_ok r && negb (str_eqb (resp_url r) url)
                 then ret (Some (resp_url r)) else ret None
     | None => ret None
     end)
    (fun _ => ret None).

(** ** [solve_single] *)

Record SolveResult : Type := mkSolveResult {
  original_url : str;
  service : str;
  solved_url : option str;
  success : bool;
  error : option str;
  response_time : option Z;   (* [time.time()] difference *)
  metadata : option unit }.

Definition set_solved (r : SolveResult) (u : option str) : SolveResult :=
  mkSolveResult (original_url r) (service r) u
    (match u with Some _ => true | None => false end)
    (error r) (response_time r) (metadata r).

Definition set_error (r : SolveResult) (e : str) : SolveResult :=
  mkSolveResult (original_url r) (service r) (solved_url r) (success r)
    (Some e) (response_time r) (metadata r).

Definition set_response_time (r : SolveResult) (t : Z) : SolveResult :=
  mkSolveResult (original_url r) (service r) (solved_url r) (success r)
    (error r) (Some t) (metadata r).

(** The dispatch inside the [try] of [solve_single]. *)
Definition dispatch (service : str) (url : str) : M (option str) :=
  if str_eqb service "adfly" then extract_adfly_link url
  else if str_eqb service "linkvertise" then extract_linkvertise_link url
  else if str_eqb service "gyanilinks" then extract_adfly_link url
  else if str_eqb service "shortconnect" then
    (response <- safe_request url true ;;
     ret (match response with
          | Some r => if truthy response then Some (resp_url r) else None
          | None => None
          end))
  else ret None.

Definition solve_single (url : str) : M SolveResult :=
  start_time <- time_time ;;
  let service := detect_service url in
  let result := mkSolveResult url service None false None None None in
  result <- try_except is_exception
              (solved_url <- dispatch service url ;;
               ret (set_solved result solved_url))
              (fun e => ret (set_error result (exn_str e))) ;;
  end_time <- time_time ;;
  ret (set_response_time result (end_time - start_time)%Z).

End Solver.

(** ** [solve_batch] *)

(** A Python dict with [str] keys as an association list in insertion
    order; assigning an existing key replaces its value in place. *)
Fixpoint dict_set (d : list (str * nat)) (k : str) (v : nat) : list (str * nat) :=
  match d with
  | [] => [(k, v)]
  | (k', v') :: d' => if str_eqb k' k then (k', v) :: d' else (k', v') :: dict_set d' k v
  end.

Fixpoint dict_get (d : list (str * nat)) (k : str) : option nat :=
  match d with
  | [] => None
  | (k', v') :: d' => if str_eqb k' k then Some v' else dict_get d' k
  end.

(** [{url: i for i, url in enumerate(urls)}] *)
Fixpoint url_order_loop (i : nat) (urls : list str) (d : list (str * nat)) :=
  match urls with
  | [] => d
  | u :: urls' => url_order_loop (S i) urls' (dict_set d u i)
  end.

Definition url_order (urls : list str) : list (str * nat) := url_order_loop 0 urls [].

(** [list.sort] is stable; a stable sort by a key has one possible result,
    which this insertion sort computes: an element is placed before the
    first element whose key is not smaller. *)
Fixpoint insert_by {A} (key : A -> nat) (x : A) (l : list A) : list A :=
  match l with
  | [] => [x]
  | y :: l' => if key x <=? key y then x :: y :: l' else y :: insert_by key x l'
  end.

Fixpoint sort_by {A} (key : A -> nat) (l : list A) : list A :=
  match l with
  | [] => []
  | x :: l' => insert_by key x (sort_by key l')
  end.

Section Batch.

(** Each submitted task [i] (for [urls[i]]) runs [solve_single] against its
    own view of the network and the clock; [task_fault i] is a fault of the
    executor itself, raised by [future.result()]. *)
Variable task_net : nat -> nat -> str -> bool -> net_outcome.
Variable task_clock : nat -> nat -> Z.
Variable task_fault : nat -> option exn.
Variable max_retries : nat.

Definition future_result (urls : list str) (i : nat) : outcome SolveResult :=
  match task_fault i with
  | Some e => Exc e
  | None => fst (solve_single (task_net i) (task_clock i) max_retries (nth i urls []) st0)
  end.

(** The body of [for future in as_completed(future_to_url)]. *)
Definition collect (urls : list str) (i : nat) : SolveResult :=
  let url := nth i urls [] in
  match future_result urls i with
  | Ok result => result
  | Exc e => mkSolveResult url "unknown" None false (Some (exn_str e)) None None
  end.

Definition order_key (urls : list str) (x : SolveResult) : nat :=
  match dict_get (url_order urls) (original_url x) with Some i => i | None => 0 end.

(** [completion] lists the task indices in the order [as_completed] yields them. *)
Definition solve_batch (urls : list str) (completion : list nat) : list SolveResult :=
  let results := map (collect urls) completion in
  sort_by (order_key urls) results.

End Batch.

(** ** Export ([export_results], the [json] branch) *)

(** The module-level names of [ab_links_solver.py]: its imports and its
    own top-level definitions. *)
Definition module_globals : list str :=
  map list_ascii_of_string
  ["re"; "time"; "random"; "logging"; "Optional"; "Dict"; "List"; "Tuple"; "Any";
   "dataclass"; "urlparse"; "requests"; "ThreadPoolExecutor"; "as_completed";
   "logger"; "SolveResult"; "EnhancedABLinksSolver"].

(** Evaluating a global name. *)
Definition load_global (name : str) : M unit :=
  if existsb (str_eqb name) module_globals then ret tt
  else raise (OtherException ("name '" ++ name ++ "' is not defined")).

Inductive json_value : Type :=
| JStr (s : str)
| JNull
| JBool (b : bool)
| JNum (z : Z).

Definition opt_str (o : option str) : json_value :=
  match o with Some s => JStr s | None => JNull end.

Definition opt_num (o : option Z) : json_value :=
  match o with Some z => JNum z | None => JNull end.

Definition result_fields (result : SolveResult) : list (str * json_value) :=
  [("original_url" : str, JStr (original_url result));
   ("service" : str, JStr (service result));
   ("solved_url" : str, opt_str (solved_url result));
   ("success" : str, JBool (success result));
   ("response_time" : str, opt_num (response_time result));
   ("error" : str, opt_str (error result))].

Section JsonExport.

(** [json.dumps(data, indent=2)] of the standard library. *)
Variable json_dumps : list (list (str * json_value)) -> str.

Definition export_results_json (results : list SolveResult) : M str :=
  let data := map result_fields results in
  load_global "json" ;;;
  ret (json_dumps data).

End JsonExport.

(** * Properties *)

(** ** Descramble *)

Lemma descramble_loop_perm : forall rest i decoded,
  Permutation (descramble_loop i rest decoded) (decoded ++ rest).
Proof.
  induction rest as [|c rest IH]; intros i decoded; simpl.
  - rewrite app_nil_r; reflexivity.
  - destruct (Nat.even i).
    + rewrite IH, <- app_assoc; reflexivity.
    + rewrite IH; simpl. apply Permutation_middle.
Qed.

Lemma descramble_perm (ysmm : str) : Permutation (descramble ysmm) ysmm.
Proof. apply descramble_loop_perm. Qed.

(** ** What a match can capture *)

Lemma greedy_try_some {T} : forall i mn (f : nat -> option T) x,
  greedy_try i mn f = Some x -> exists j, f j = Some x.
Proof.
  induction i as [|i IH]; intros mn f x H; simpl in H.
  - destruct (0 <? mn); [discriminate|]. destruct (f 0) eqn:E; [|discriminate].
    inversion H; subst; eauto.
  - destruct (S i <? mn); [discriminate|]. destruct (f (S i)) eqn:E.
    + inversion H; subst; eauto.
    + eapply IH; eauto.
Qed.

Lemma incl_skipn_self : forall n (l : str), incl (skipn n l) l.
Proof.
  induction n as [|n IH]; intros [|c l]; simpl; try apply incl_refl.
  apply incl_tl, IH.
Qed.

Lemma incl_firstn_self : forall n (l : str), incl (firstn n l) l.
Proof.
  induction n as [|n IH]; intros [|c l]; simpl.
  - apply incl_nil_l.
  - apply incl_nil_l.
  - apply incl_nil_l.
  - apply incl_cons; [left; reflexivity|]. apply incl_tl, IH.
Qed.

Lemma m_incl {T} (ic : bool) (r : rx) : forall s cap k (x : T),
  m ic r s cap k = Some x ->
  exists s' cap', k s' cap' = Some x /\ incl s' s /\
    (cap' = cap \/ exists c, cap' = Some c /\ incl c s).
Proof.
  induction r as [| c | p | a IHa b IHb | p mn | a IHa | a IHa];
    intros s cap k x H; simpl in H.
  - exists s, cap; split; [assumption|split; [apply incl_refl|left; reflexivity]].
  - destruct s as [|y t]; [discriminate|]. destruct (char_eqb ic c y); [|discriminate].
    exists t, cap; split; [assumption|split; [apply incl_tl, incl_refl|left; reflexivity]].
  - destruct s as [|y t]; [discriminate|]. destruct (p y); [|discriminate].
    exists t, cap; split; [assumption|split; [apply incl_tl, incl_refl|left; reflexivity]].
  - destruct (IHa _ _ _ _ H) as (s1 & cap1 & H1 & Hs1 & Hc1).
    destruct (IHb _ _ _ _ H1) as (s2 & cap2 & H2 & Hs2 & Hc2).
    exists s2, cap2; split; [assumption|split; [eapply incl_tran; eauto|]].
    destruct Hc2 as [->|(c2 & -> & Hc2)].
    + destruct Hc1 as [->|(c1 & -> & Hc1)]; [left; reflexivity|].
      right; eauto.
    + right; exists c2; split; [reflexivity|eapply incl_tran; eauto].
  - destruct (greedy_try_some _ _ _ _ H) as [j Hj].
    exists (skipn j s), cap; split; [assumption|split; [apply incl_skipn_self|left; reflexivity]].
  - destruct (m ic a s cap k) eqn:E.
    + inversion H; subst. apply (IHa _ _ _ _ E).
    + exists s, cap; split; [assumption|split; [apply incl_refl|left; reflexivity]].
  - destruct (IHa _ _ _ _ H) as (s1 & cap1 & H1 & Hs1 & _).
    exists s1, (Some (firstn (List.length s - List.length s1) s)).
    split; [assumption|split; [assumption|]].
    right; eexists; split; [reflexivity|apply incl_firstn_self].
Qed.

Lemma re_search_incl (r : rx) : forall s u,
  re_search r s = Some (Some u) -> incl u s.
Proof.
  induction s as [|c t IH]; intros u H; simpl in H.
  - destruct (m false r [] None (fun _ cap => Some cap)) eqn:E.
    + inversion H; subst.
      destruct (m_incl _ _ _ _ _ _ E) as (s' & cap' & H1 & _ & Hc).
      inversion H1; subst.
      destruct Hc as [Hc|(c' & Hc' & Hc)]; [discriminate|].
      inversion Hc'; subst; assumption.
    + discriminate.
  - destruct (m false r (c :: t) None (fun _ cap => Some cap)) eqn:E.
    + inversion H; subst.
      destruct (m_incl _ _ _ _ _ _ E) as (s' & cap' & H1 & _ & Hc).
      inversion H1; subst.
      destruct Hc as [Hc|(c' & Hc' & Hc)]; [discriminate|].
      inversion Hc'; subst; assumption.
    + apply incl_tl, IH, H.
Qed.

Lemma adfly_patterns_loop_incl : forall patterns html u,
  adfly_patterns_loop patterns html = Some u ->
  exists pattern ysmm, In pattern patterns /\
    re_search pattern html = Some (Some ysmm) /\ incl u ysmm.
Proof.
  induction patterns as [|p ps IH]; intros html u H; simpl in H; [discriminate|].
  destruct (re_search p html) as [[ysmm|]|] eqn:E1.
  - destruct (re_search url_pattern (descramble ysmm)) as [[v|]|] eqn:E2.
    + inversion H; subst. exists p, ysmm; split; [left; reflexivity|split; [assumption|]].
      intros a Ha. apply (Permutation_in _ (descramble_perm ysmm)).
      apply (re_search_incl _ _ _ E2), Ha.
    + destruct (IH _ _ H) as (q & y & Hq & Hy & Hi); exists q, y; split; [right|]; auto.
    + destruct (IH _ _ H) as (q & y & Hq & Hy & Hi); exists q, y; split; [right|]; auto.
  - destruct (IH _ _ H) as (q & y & Hq & Hy & Hi); exists q, y; split; [right|]; auto.
  - destruct (IH _ _ H) as (q & y & Hq & Hy & Hi); exists q, y; split; [right|]; auto.
Qed.

(** C10: the descramble loop of the AdFly extraction is a permutation of the
    captured token (same length, same multiset of characters), so a URL the
    AdFly extraction returns only uses characters of a token captured from
    the page by one of the [ysmm] patterns. *)
Theorem descramble_is_permutation :
  (forall ysmm : str,
     Permutation (descramble ysmm) ysmm /\
     List.length (descramble ysmm) = List.length ysmm) /\
  (forall html u,
     adfly_patterns_loop ysmm_patterns html = Some u ->
     exists pattern ysmm, In pattern ysmm_patterns /\
       re_search pattern html = Some (Some ysmm) /\
       forall c, In c u -> In c ysmm).
Proof.
  split.
  - intros ysmm; split; [apply descramble_perm|].
    apply Permutation_length, descramble_perm.
  - intros html u H. apply adfly_patterns_loop_incl, H.
Qed.

(** C8: applying the descramble transform twice gives back the token for
    an even-length token and for an odd-length token. *)
Theorem descramble_involutive_examples :
  exists t_even t_odd : str,
    Nat.even (List.length t_even) = true /\
    Nat.odd (List.length t_odd) = true /\
    descramble (descramble t_even) = t_even /\
    descramble (descramble t_odd) = t_odd.
Proof.
  exists ("ab" : str), ("abc" : str). repeat split; reflexivity.
Qed.

(** ** The retry loop of [safe_request] *)

(** An attempt fails with a [RequestException]: a transport error, or a
    response that [raise_for_status] rejects. *)
Definition attempt_fails (o : net_outcome) : bool :=
  match o with
  | NetResponse r => negb (resp_ok r)
  | NetRaise e => is_request_exception e
  end.

(** The trace of failed attempts [a], ..., [a+j-1], each followed by its
    back-off sleep of [2^attempt] seconds. *)
Definition retry_trace (url : str) (allow_redirects : bool) (a j : nat) : list event :=
  flat_map (fun k => [EGet url allow_redirects 30; ESleep (2 ^ Z.of_nat k)]) (seq a j).

Section SafeRequest.

Variable net : nat -> str -> bool -> net_outcome.
Variable max_retries : nat.
Variable url : str.
Variable allow_redirects : bool.

Let loop := safe_request_loop net max_retries url allow_redirects.

Definition after_get (s : st) : st :=
  mkst (S (st_calls s)) (st_time s) (st_trace s ++ [EGet url allow_redirects 30]).

Lemma loop_step : forall a rem s,
  loop a (S rem) s =
  let s1 := after_get s in
  let handler :=
    if a =? max_retries - 1 then (Ok None, s1)
    else loop (S a) rem (mkst (st_calls s1) (st_time s1)
                           (st_trace s1 ++ [ESleep (2 ^ Z.of_nat a)])) in
  match net (st_calls s) url allow_redirects with
  | NetResponse r => if resp_ok r then (Ok (Some r), s1) else handler
  | NetRaise e => if is_request_exception e then handler else (Exc e, s1)
  end.
Proof.
  intros a rem s. unfold loop; simpl.
  cbv [try_except bind attempt_once session_get raise_for_status ret raise].
  destruct (net (st_calls s) url allow_redirects) as [r|e]; simpl.
  - destruct (resp_ok r); simpl; [reflexivity|].
    destruct (a =? max_retries - 1); reflexivity.
  - destruct (is_request_exception e); [|reflexivity].
    destruct (a =? max_retries - 1); reflexivity.
Qed.

Lemma loop_all_fail : forall r a s,
  a + S r = max_retries ->
  (forall k, k <= r -> attempt_fails (net (st_calls s + k) url allow_redirects) = true) ->
  loop a (S r) s =
  (Ok None, mkst (st_calls s + S r) (st_time s)
              (st_trace s ++ retry_trace url allow_redirects a r
                          ++ [EGet url allow_redirects 30])).
Proof.
  induction r as [|r IH]; intros a s Hm Hf; rewrite loop_step; cbv zeta.
  - assert (Ha : (a =? max_retries - 1) = true) by (apply Nat.eqb_eq; lia).
    specialize (Hf 0 (le_n 0)); rewrite Nat.add_0_r in Hf.
    destruct (net (st_calls s) url allow_redirects) as [resp|e]; simpl in Hf.
    + destruct (resp_ok resp); [discriminate|]. rewrite Ha.
      unfold after_get; simpl. repeat f_equal; lia.
    + rewrite Hf, Ha. unfold after_get; simpl. repeat f_equal; lia.
  - assert (Ha : (a =? max_retries - 1) = false) by (apply Nat.eqb_neq; lia).
    assert (Hf0 := Hf 0 (Nat.le_0_l _)); rewrite Nat.add_0_r in Hf0.
    assert (Hrec : loop (S a) (S r)
              (mkst (st_calls (after_get s)) (st_time (after_get s))
                    (st_trace (after_get s) ++ [ESleep (2 ^ Z.of_nat a)])) =
            (Ok None, mkst (st_calls s + S (S r)) (st_time s)
              (st_trace s ++ retry_trace url allow_redirects a (S r)
                          ++ [EGet url allow_redirects 30]))).
    { rewrite IH; simpl.
      - unfold after_get, retry_trace; simpl.
        replace (S (st_calls s + S r)) with (st_calls s + S (S r)) by lia.
        rewrite <- !app_assoc; reflexivity.
      - lia.
      - intros k Hk. unfold after_get; simpl.
        replace (S (st_calls s + k)) with (st_calls s + S k) by lia. apply Hf; lia. }
    destruct (net (st_calls s) url allow_redirects) as [resp|e]; simpl in Hf0.
    + destruct (resp_ok resp); [discriminate|]. rewrite Ha. exact Hrec.
    + rewrite Hf0, Ha. exact Hrec.
Qed.

Lemma loop_first_success : forall j a rem s resp,
  a + rem = max_retries -> j < rem ->
  (forall k, k < j -> attempt_fails (net (st_calls s + k) url allow_redirects) = true) ->
  net (st_calls s + j) url allow_redirects = NetResponse resp -> resp_ok resp = true ->
  loop a rem s =
  (Ok (Some resp), mkst (st_calls s + S j) (st_time s)
                     (st_trace s ++ retry_trace url allow_redirects a j
                                 ++ [EGet url allow_redirects 30])).
Proof.
  induction j as [|j IH]; intros a rem s resp Hm Hj Hf Hn Hok;
    (destruct rem as [|rem]; [lia|]); rewrite loop_step; cbv zeta.
  - rewrite Nat.add_0_r in Hn. rewrite Hn, Hok.
    unfold after_get; simpl. repeat f_equal; lia.
  - assert (Ha : (a =? max_retries - 1) = false) by (apply Nat.eqb_neq; lia).
    assert (Hf0 := Hf 0 ltac:(lia)); rewrite Nat.add_0_r in Hf0.
    assert (Hrec : loop (S a) rem
              (mkst (st_calls (after_get s)) (st_time (after_get s))
                    (st_trace (after_get s) ++ [ESleep (2 ^ Z.of_nat a)])) =
            (Ok (Some resp), mkst (st_calls s + S (S j)) (st_time s)
              (st_trace s ++ retry_trace url allow_redirects a (S j)
                          ++ [EGet url allow_redirects 30]))).
    { rewrite (IH (S a) rem _ resp); simpl.
      - unfold after_get, retry_trace; simpl.
        replace (S (st_calls s + S j)) with (st_calls s + S (S j)) by lia.
        rewrite <- !app_assoc; reflexivity.
      - lia.
      - lia.
      - intros k Hk. unfold after_get; simpl.
        replace (S (st_calls s + k)) with (st_calls s + S k) by lia. apply Hf; lia.
      - unfold after_get; simpl.
        replace (S (st_calls s + j)) with (st_calls s + S j) by lia. exact Hn.
      - exact Hok. }
    destruct (net (st_calls s) url allow_redirects) as [r0|e]; simpl in Hf0.
    + destruct (resp_ok r0); [discriminate|]. rewrite Ha. exact Hrec.
    + rewrite Hf0, Ha. exact Hrec.
Qed.

Lemma loop_calls_bound : forall rem a s o s',
  loop a rem s = (o, s') -> st_calls s' <= st_calls s + rem.
Proof.
  induction rem as [|rem IH]; intros a s o s' H.
  - unfold loop in H; simpl in H; unfold ret in H. inversion H; subst; lia.
  - rewrite loop_step in H; cbv zeta in H.
    destruct (net (st_calls s) url allow_redirects) as [r|e];
      [destruct (resp_ok r)|destruct (is_request_exception e)];
      try (inversion H; subst; unfold after_get; simpl; lia);
      (destruct (a =? max_retries - 1);
       [inversion H; subst; unfold after_get; simpl; lia|
        apply IH in H; unfold after_get in H; simpl in H; lia]).
Qed.

Lemma loop_none_all_failed : forall rem a s s',
  a + rem = max_retries ->
  loop a rem s = (Ok None, s') ->
  st_calls s' = st_calls s + rem /\
  forall k, k < rem -> attempt_fails (net (st_calls s + k) url allow_redirects) = true.
Proof.
  induction rem as [|rem IH]; intros a s s' Hm H.
  - unfold loop in H; simpl in H; unfold ret in H. inversion H; subst.
    split; [lia|intros; lia].
  - rewrite loop_step in H; cbv zeta in H.
    assert (Hstep : attempt_fails (net (st_calls s) url allow_redirects) = true ->
      (if a =? max_retries - 1 then (Ok None, after_get s)
       else loop (S a) rem (mkst (st_calls (after_get s)) (st_time (after_get s))
              (st_trace (after_get s) ++ [ESleep (2 ^ Z.of_nat a)]))) = (Ok None, s') ->
      st_calls s' = st_calls s + S rem /\
      forall k, k < S rem -> attempt_fails (net (st_calls s + k) url allow_redirects) = true).
    { intros Hf0 H'. destruct (a =? max_retries - 1) eqn:Ha.
      - apply Nat.eqb_eq in Ha. assert (rem = 0) by lia; subst rem.
        inversion H'; subst. unfold after_get; simpl. split; [lia|].
        intros k Hk. assert (k = 0) by lia; subst k. rewrite Nat.add_0_r; exact Hf0.
      - apply IH in H'; [|lia]. destruct H' as [Hc Hk].
        unfold after_get in Hc, Hk; simpl in Hc, Hk. split; [lia|].
        intros [|k] Hlt; [rewrite Nat.add_0_r; exact Hf0|].
        replace (st_calls s + S k) with (S (st_calls s + k)) by lia.
        apply Hk; lia. }
    destruct (net (st_calls s) url allow_redirects) as [r|e] eqn:En.
    + destruct (resp_ok r) eqn:Eok; [inversion H|].
      apply Hstep; [simpl; rewrite Eok; reflexivity|exact H].
    + destruct (is_request_exception e) eqn:Ee; [|inversion H].
      apply Hstep; [simpl; exact Ee|exact H].
Qed.

End SafeRequest.

(** ** Monad facts *)

Definition keeps_time {A} (c : M A) : Prop :=
  forall s, st_time (snd (c s)) = st_time s.

Lemma ret_keeps {A} (a : A) : keeps_time (ret a).
Proof. intros s; reflexivity. Qed.

Lemma raise_keeps {A} (e : exn) : keeps_time (@raise A e).
Proof. intros s; reflexivity. Qed.

Lemma emit_keeps (e : event) : keeps_time (emit e).
Proof. intros s; reflexivity. Qed.

Lemma bind_keeps {A B} (c : M A) (f : A -> M B) :
  keeps_time c -> (forall a, keeps_time (f a)) -> keeps_time (bind c f).
Proof.
  intros Hc Hf s. unfold bind. specialize (Hc s).
  destruct (c s) as [[a|e] s'] eqn:E; simpl in *; [rewrite Hf|]; exact Hc.
Qed.

Lemma try_keeps {A} (h : exn -> bool) (c : M A) (g : exn -> M A) :
  keeps_time c -> (forall e, keeps_time (g e)) -> keeps_time (try_except h c g).
Proof.
  intros Hc Hg s. unfold try_except. specialize (Hc s).
  destruct (c s) as [[a|e] s'] eqn:E; simpl in *; [exact Hc|].
  destruct (h e); simpl; [rewrite Hg|]; exact Hc.
Qed.

Lemma session_get_keeps net url ar t : keeps_time (session_get net url ar t).
Proof. intros s; unfold session_get; destruct (net _ _ _); reflexivity. Qed.

Create HintDb keeps.
#[local] Hint Resolve ret_keeps raise_keeps emit_keeps session_get_keeps : keeps.

Ltac keeps_tac :=
  repeat (intros; first
    [ solve [eauto with keeps]
    | apply bind_keeps
    | apply try_keeps
    | match goal with
      | |- keeps_time (if ?b then _ else _) => destruct b
      | |- keeps_time (match ?x with _ => _ end) => destruct x
      end ]).

Lemma safe_request_loop_keeps net mr url ar : forall rem a,
  keeps_time (safe_request_loop net mr url ar a rem).
Proof.
  induction rem as [|rem IH]; intros a; simpl.
  - apply ret_keeps.
  - unfold attempt_once, raise_for_status, sleep. keeps_tac; apply IH.
Qed.

#[local] Hint Resolve safe_request_loop_keeps : keeps.

Lemma dispatch_keeps net mr service url : keeps_time (dispatch net mr service url).
Proof.
  unfold dispatch, extract_adfly_link, extract_linkvertise_link, safe_request.
  keeps_tac.
Qed.

(** [try: ... except Exception: return None] never lets an exception out. *)
Lemma try_all_ok {A} (c : M A) (x : A) s :
  exists a s', try_except is_exception c (fun _ => ret x) s = (Ok a, s').
Proof.
  unfold try_except. destruct (c s) as [[a|e] s']; simpl; do 2 eexists; reflexivity.
Qed.

Lemma bind_ok {A B} (c : M A) (f : A -> M B) s a s' :
  c s = (Ok a, s') -> bind c f s = f a s'.
Proof. intros H; unfold bind; rewrite H; reflexivity. Qed.

Lemma try_ok {A} h (c : M A) g s a s' :
  c s = (Ok a, s') -> try_except h c g s = (Ok a, s').
Proof. intros H; unfold try_except; rewrite H; reflexivity. Qed.

(** ** [solve_single] unfolded *)

Definition base_result (url : str) : SolveResult :=
  mkSolveResult url (detect_service url) None false None None None.

Definition after_dispatch (url : str) (o : outcome (option str)) : SolveResult :=
  match o with
  | Ok su => set_solved (base_result url) su
  | Exc e => set_error (base_result url) (exn_str e)
  end.

Definition tick (s : st) : st := mkst (st_calls s) (S (st_time s)) (st_trace s).

Lemma solve_single_eq net clock mr url s :
  solve_single net clock mr url s =
  let (o, s2) := dispatch net mr (detect_service url) url (tick s) in
  (Ok (set_response_time (after_dispatch url o)
         (clock (S (st_time s)) - clock (st_time s))%Z),
   tick s2).
Proof.
  unfold solve_single. cbv [bind time_time try_except ret].
  pose proof (dispatch_keeps net mr (detect_service url) url (tick s)) as Hk.
  destruct (dispatch net mr (detect_service url) url _) as [[su|e] s2]; simpl in Hk;
    unfold tick; simpl; rewrite Hk; reflexivity.
Qed.

Lemma safe_request_all_fail net mr url ar s :
  (forall k, attempt_fails (net (st_calls s + k) url ar) = true) ->
  exists s', safe_request net mr url ar s = (Ok None, s') /\
             st_calls s' = st_calls s + mr.
Proof.
  intros Hf. unfold safe_request. destruct mr as [|r].
  - exists s; split; [reflexivity|lia].
  - eexists; split; [apply loop_all_fail; [lia|intros; apply Hf]|]. simpl; lia.
Qed.

Definition strategy_services : list str :=
  map list_ascii_of_string ["adfly"; "linkvertise"; "gyanilinks"; "shortconnect"].

Lemma dispatch_adfly net mr url :
  dispatch net mr "adfly" url = extract_adfly_link net mr url.
Proof. reflexivity. Qed.

Lemma dispatch_linkvertise net mr url :
  dispatch net mr "linkvertise" url = extract_linkvertise_link net mr url.
Proof. reflexivity. Qed.

Lemma dispatch_gyanilinks net mr url :
  dispatch net mr "gyanilinks" url = extract_adfly_link net mr url.
Proof. reflexivity. Qed.

Lemma dispatch_shortconnect net mr url :
  dispatch net mr "shortconnect" url =
  (response <- safe_request net mr url true ;;
   ret (match response with
        | Some r => if truthy response then Some (resp_url r) else None
        | None => None
        end)).
Proof. reflexivity. Qed.

Lemma extract_adfly_never_raises net mr url s :
  exists a s', extract_adfly_link net mr url s = (Ok a, s').
Proof. apply try_all_ok. Qed.

Lemma extract_linkvertise_never_raises net mr url s :
  exists a s', extract_linkvertise_link net mr url s = (Ok a, s').
Proof. apply try_all_ok. Qed.

Lemma dispatch_all_fail net mr service url s :
  In service strategy_services ->
  (forall n ar, attempt_fails (net n url ar) = true) ->
  exists s', dispatch net mr service url s = (Ok None, s') /\
             st_calls s' = st_calls s + mr.
Proof.
  intros Hin Hf.
  destruct (safe_request_all_fail net mr url false s (fun k => Hf _ _)) as (s1 & E1 & C1).
  destruct (safe_request_all_fail net mr url true s (fun k => Hf _ _)) as (s2 & E2 & C2).
  simpl in Hin; destruct Hin as [<-|[<-|[<-|[<-|[]]]]].
  - rewrite dispatch_adfly. exists s1; split; [|exact C1].
    unfold extract_adfly_link. apply try_ok. rewrite (bind_ok _ _ _ _ _ E1). reflexivity.
  - rewrite dispatch_linkvertise. exists s2; split; [|exact C2].
    unfold extract_linkvertise_link. apply try_ok. rewrite (bind_ok _ _ _ _ _ E2). reflexivity.
  - rewrite dispatch_gyanilinks. exists s1; split; [|exact C1].
    unfold extract_adfly_link. apply try_ok. rewrite (bind_ok _ _ _ _ _ E1). reflexivity.
  - rewrite dispatch_shortconnect. exists s2; split; [|exact C2].
    rewrite (bind_ok _ _ _ _ _ E2). reflexivity.
Qed.

(** ** Concrete inputs *)

Definition adfly_url : str := "https://adf.ly/1234567/https://example.com".
Definition shortconnect_url : str := "https://shortconnect.com/abc123".
Definition linkvertise_url : str := "https://linkvertise.com/1234567/example".
Definition unknown_url : str := "https://example.com/unknown-page".

(** Every session call times out. *)
Definition timeout_net : nat -> str -> bool -> net_outcome :=
  fun _ _ _ => NetRaise (RequestException "Read timed out").

(** Every session call raises an exception that is not a [RequestException]. *)
Definition boom : exn := OtherException "boom".
Definition boom_net : nat -> str -> bool -> net_outcome := fun _ _ _ => NetRaise boom.

Definition final_response : Response := mkResponse 200 "https://final.example.com" "".

(** The first call times out, the following ones answer 200. *)
Definition flaky_net : nat -> str -> bool -> net_outcome :=
  fun n _ _ => if n =? 0 then NetRaise (RequestException "Read timed out")
               else NetResponse final_response.

(** Every session call answers 200 without any redirect. *)
Definition same_url_net : nat -> str -> bool -> net_outcome :=
  fun _ u _ => NetResponse (mkResponse 200 u "").

Definition ticking_clock : nat -> Z := Z.of_nat.
Definition frozen_clock : nat -> Z := fun _ => 1700000000%Z.

(** ** C6: the retry contract of [safe_request] *)

(** C6: [safe_request] makes at most [max_retries] session calls; if the
    attempts before attempt [j] failed and attempt [j] succeeds, it returns
    that response, having slept [2^k] seconds after each failed attempt [k];
    if all [max_retries] attempts fail it returns [None] with no sleep after
    the last one; and it returns [None] only when all of them failed. *)
Theorem safe_request_retry_contract net max_retries url allow_redirects s :
  (forall o s', safe_request net max_retries url allow_redirects s = (o, s') ->
     st_calls s' <= st_calls s + max_retries) /\
  (forall j resp, j < max_retries ->
     (forall k, k < j -> attempt_fails (net (st_calls s + k) url allow_redirects) = true) ->
     net (st_calls s + j) url allow_redirects = NetResponse resp -> resp_ok resp = true ->
     safe_request net max_retries url allow_redirects s =
     (Ok (Some resp), mkst (st_calls s + S j) (st_time s)
        (st_trace s ++ retry_trace url allow_redirects 0 j
                    ++ [EGet url allow_redirects 30]))) /\
  (forall r, max_retries = S r ->
     (forall k, k < max_retries -> attempt_fails (net (st_calls s + k) url allow_redirects) = true) ->
     safe_request net max_retries url allow_redirects s =
     (Ok None, mkst (st_calls s + max_retries) (st_time s)
        (st_trace s ++ retry_trace url allow_redirects 0 r
                    ++ [EGet url allow_redirects 30]))) /\
  (forall s', safe_request net max_retries url allow_redirects s = (Ok None, s') ->
     st_calls s' = st_calls s + max_retries /\
     forall k, k < max_retries -> attempt_fails (net (st_calls s + k) url allow_redirects) = true).
Proof.
  unfold safe_request. split; [|split; [|split]].
  - intros o s' H. exact (loop_calls_bound net max_retries url allow_redirects _ _ _ _ _ H).
  - intros j resp Hj Hf Hn Hok.
    apply (loop_first_success net max_retries url allow_redirects); auto.
  - intros r Hm Hf. subst max_retries.
    apply loop_all_fail; [lia|]. intros k Hk; apply Hf; lia.
  - intros s' H. exact (loop_none_all_failed net max_retries url allow_redirects max_retries 0 s s' eq_refl H).
Qed.

Lemma safe_request_retry_contract_witness :
  1 < 3 /\
  (forall k, k < 1 -> attempt_fails (flaky_net (st_calls st0 + k) shortconnect_url true) = true) /\
  flaky_net (st_calls st0 + 1) shortconnect_url true = NetResponse final_response /\
  resp_ok final_response = true /\
  safe_request flaky_net 3 shortconnect_url true st0 =
  (Ok (Some final_response), mkst 2 0
     ([] ++ retry_trace shortconnect_url true 0 1 ++ [EGet shortconnect_url true 30])).
Proof.
  assert (Hf : forall k, k < 1 ->
            attempt_fails (flaky_net (st_calls st0 + k) shortconnect_url true) = true).
  { intros k Hk. assert (k = 0) by lia; subst k. reflexivity. }
  split; [lia|]. split; [exact Hf|]. split; [reflexivity|]. split; [reflexivity|].
  exact (proj1 (proj2 (safe_request_retry_contract flaky_net 3 shortconnect_url true st0))
           1 final_response ltac:(lia) Hf eq_refl eq_refl).
Defined.

(** ** C1: every attempt fails *)

(** C1 (as amended): for a URL whose service has a strategy, if every
    session call fails with a [RequestException] (a transport error or a
    4xx/5xx status), [solve_single] returns a result with [success = false],
    [solved_url = None] and [error = None] (the transport failure is not
    reported as error text), after exactly [max_retries] session calls. *)
Theorem solve_single_all_attempts_fail net clock max_retries url s :
  In (detect_service url) strategy_services ->
  (forall n ar, attempt_fails (net n url ar) = true) ->
  exists r s', solve_single net clock max_retries url s = (Ok r, s') /\
    success r = false /\ solved_url r = None /\ error r = None /\
    st_calls s' = st_calls s + max_retries.
Proof.
  intros Hin Hf. rewrite solve_single_eq.
  destruct (dispatch_all_fail net max_retries _ url (tick s) Hin Hf) as (s2 & E & C).
  rewrite E. eexists; eexists; split; [reflexivity|].
  simpl. repeat split. unfold tick in C; simpl in C. exact C.
Qed.

Lemma solve_single_all_attempts_fail_witness :
  In (detect_service adfly_url) strategy_services /\
  (forall n ar, attempt_fails (timeout_net n adfly_url ar) = true) /\
  exists r s', solve_single timeout_net ticking_clock 3 adfly_url st0 = (Ok r, s') /\
    success r = false /\ solved_url r = None /\ error r = None /\ st_calls s' = 3.
Proof.
  assert (Hin : In (detect_service adfly_url) strategy_services)
    by (vm_compute; left; reflexivity).
  assert (Hf : forall n ar, attempt_fails (timeout_net n adfly_url ar) = true)
    by (intros; reflexivity).
  split; [exact Hin|]. split; [exact Hf|].
  exact (solve_single_all_attempts_fail timeout_net ticking_clock 3 adfly_url st0 Hin Hf).
Defined.

(** C1 as stated fails: with every attempt timing out, the AdFly URL gets
    [error = None], not an error string. *)
Lemma all_attempts_fail_error_is_null :
  ~ (exists r s', solve_single timeout_net ticking_clock 3 adfly_url st0 = (Ok r, s') /\
       success r = false /\ error r <> None /\ st_calls s' = 3).
Proof.
  intros (r & s' & H & _ & He & _).
  vm_compute in H. inversion H; subst. apply He; reflexivity.
Qed.

(** ** C4: [solve_single] never raises *)

Definition adfly_like_services : list str :=
  map list_ascii_of_string ["adfly"; "linkvertise"; "gyanilinks"].

Lemma dispatch_adfly_like_ok net mr service url s :
  In service adfly_like_services ->
  exists a s', dispatch net mr service url s = (Ok a, s').
Proof.
  simpl; intros [<-|[<-|[<-|[]]]].
  - rewrite dispatch_adfly; apply extract_adfly_never_raises.
  - rewrite dispatch_linkvertise; apply extract_linkvertise_never_raises.
  - rewrite dispatch_gyanilinks; apply extract_adfly_never_raises.
Qed.

(** C4 (as amended): [solve_single] always returns a result and never
    propagates an exception.  An exception that leaves the dispatch is
    stored as [str(e)] in [error], with [success = false] and
    [solved_url = None].  For adfly, linkvertise and gyanilinks the
    extraction methods catch every exception themselves and return None,
    so those results always have [error = None]. *)
Theorem solve_single_never_raises net clock max_retries url s :
  exists r s', solve_single net clock max_retries url s = (Ok r, s') /\
    (forall e s2, dispatch net max_retries (detect_service url) url (tick s) = (Exc e, s2) ->
       error r = Some (exn_str e) /\ success r = false /\ solved_url r = None) /\
    (In (detect_service url) adfly_like_services -> error r = None).
Proof.
  rewrite solve_single_eq.
  destruct (dispatch net max_retries (detect_service url) url (tick s)) as [o s2] eqn:E.
  eexists; eexists; split; [reflexivity|]. split.
  - intros e s3 He. inversion He; subst. simpl. repeat split.
  - intros Hin. destruct (dispatch_adfly_like_ok net max_retries _ url (tick s) Hin)
      as (a & s3 & E').
    rewrite E' in E. inversion E; subst. reflexivity.
Qed.

Lemma solve_single_never_raises_witness :
  dispatch boom_net 3 (detect_service shortconnect_url) shortconnect_url (tick st0) =
    (Exc boom, mkst 1 1 [EGet shortconnect_url true 30]) /\
  exists r s', solve_single boom_net ticking_clock 3 shortconnect_url st0 = (Ok r, s') /\
    error r = Some (exn_str boom) /\ success r = false.
Proof.
  assert (Hd : dispatch boom_net 3 (detect_service shortconnect_url) shortconnect_url (tick st0) =
               (Exc boom, mkst 1 1 [EGet shortconnect_url true 30]))
    by (vm_compute; reflexivity).
  split; [exact Hd|].
  destruct (solve_single_never_raises boom_net ticking_clock 3 shortconnect_url st0)
    as (r & s' & H1 & H2 & _).
  exists r, s'. split; [exact H1|].
  destruct (H2 _ _ Hd) as (He & Hs & _). split; assumption.
Defined.

(** C4 as stated fails: an exception raised inside the AdFly strategy (by
    its session call) is not captured as the result's error string. *)
Lemma strategy_exception_not_in_error :
  boom_net 0 adfly_url false = NetRaise boom /\
  ~ (exists r, fst (solve_single boom_net ticking_clock 3 adfly_url st0) = Ok r /\
               error r = Some (exn_str boom)).
Proof.
  split; [reflexivity|].
  intros (r & H & He). vm_compute in H. inversion H; subst. discriminate He.
Qed.

(** ** C3: [response_time] *)

(** C3 (as amended): every result [solve_single] returns has [response_time]
    set to the difference of the two [time.time()] readings taken at its
    start and at its end; it is [>= 0] when the clock does not go back. *)
Theorem solve_single_response_time net clock max_retries url s :
  exists r s', solve_single net clock max_retries url s = (Ok r, s') /\
    response_time r = Some (clock (S (st_time s)) - clock (st_time s))%Z /\
    ((forall i j, i <= j -> (clock i <= clock j)%Z) ->
     exists t, response_time r = Some t /\ (0 <= t)%Z).
Proof.
  rewrite solve_single_eq.
  destruct (dispatch net max_retries (detect_service url) url (tick s)) as [o s2].
  eexists; eexists; split; [reflexivity|].
  assert (Hrt : response_time (set_response_time (after_dispatch url o)
                  (clock (S (st_time s)) - clock (st_time s))%Z) =
                Some (clock (S (st_time s)) - clock (st_time s))%Z)
    by (destruct o; reflexivity).
  split; [exact Hrt|].
  intros Hmono. eexists; split; [exact Hrt|].
  specialize (Hmono (st_time s) (S (st_time s)) (Nat.le_succ_diag_r _)). lia.
Qed.

Lemma solve_single_response_time_witness :
  (forall i j, i <= j -> (ticking_clock i <= ticking_clock j)%Z) /\
  exists r s', solve_single timeout_net ticking_clock 3 unknown_url st0 = (Ok r, s') /\
    exists t, response_time r = Some t /\ (0 <= t)%Z.
Proof.
  assert (Hm : forall i j, i <= j -> (ticking_clock i <= ticking_clock j)%Z)
    by (intros i j Hij; unfold ticking_clock; lia).
  split; [exact Hm|].
  destruct (solve_single_response_time timeout_net ticking_clock 3 unknown_url st0)
    as (r & s' & H1 & _ & H3).
  exists r, s'. split; [exact H1|]. exact (H3 Hm).
Defined.

(** C3 as stated fails: when both clock readings coincide (the URL of an
    unknown service needs no request), [response_time] is 0, not [> 0]. *)
Lemma response_time_can_be_zero :
  ~ (exists r t, fst (solve_single timeout_net frozen_clock 3 unknown_url st0) = Ok r /\
       response_time r = Some t /\ (0 < t)%Z).
Proof.
  intros (r & t & H & Ht & Hpos). vm_compute in H. inversion H; subst.
  simpl in Ht. inversion Ht; subst. lia.
Qed.

(** ** C7: redirect follow *)

(** C7 (code_bug): a ShortConnect URL whose request is answered 200 without
    a redirect (final URL = input URL) is reported as solved with the input
    URL itself, while the Linkvertise strategy returns None on the same
    answer.  Both requests are made with [allow_redirects=True]. *)
Theorem shortconnect_same_url_is_solved :
  solve_single same_url_net ticking_clock 3 shortconnect_url st0 =
    (Ok (mkSolveResult shortconnect_url "shortconnect" (Some shortconnect_url) true
           None (Some 1%Z) None),
     mkst 1 2 [EGet shortconnect_url true 30]) /\
  solve_single same_url_net ticking_clock 3 linkvertise_url st0 =
    (Ok (mkSolveResult linkvertise_url "linkvertise" None false None (Some 1%Z) None),
     mkst 1 2 [EGet linkvertise_url true 30]).
Proof. split; vm_compute; reflexivity. Qed.

(** ** C9: JSON export *)

(** C9 (code_bug): the [json] branch of [export_results] evaluates
    [json.dumps], but [json] is not among the module's names, so every call
    raises [NameError] whatever the results. *)
Theorem export_results_json_raises json_dumps results s :
  export_results_json json_dumps results s =
  (Exc (OtherException "name 'json' is not defined"), s).
Proof.
  assert (H : existsb (str_eqb "json") module_globals = false) by (vm_compute; reflexivity).
  unfold export_results_json, bind, load_global. rewrite H. reflexivity.
Qed.

(** ** C2: order of the batch results *)

Section Sorting.

Context {A : Type} (key : A -> nat).

Definition key_le (a b : A) : Prop := key a <= key b.

Lemma insert_by_perm : forall x l, Permutation (insert_by key x l) (x :: l).
Proof.
  intros x l; induction l as [|y l IH]; simpl; [reflexivity|].
  destruct (key x <=? key y); [reflexivity|].
  rewrite IH. apply perm_swap.
Qed.

Lemma sort_by_perm : forall l, Permutation (sort_by key l) l.
Proof.
  induction l as [|x l IH]; simpl; [reflexivity|].
  rewrite insert_by_perm, IH. reflexivity.
Qed.

Lemma insert_by_sorted : forall x l, Sorted key_le l -> Sorted key_le (insert_by key x l).
Proof.
  intros x l; induction l as [|y l IH]; intros Hs; simpl.
  - repeat constructor.
  - destruct (key x <=? key y) eqn:E.
    + apply Nat.leb_le in E. constructor; [exact Hs|constructor; exact E].
    + apply Nat.leb_gt in E. apply Sorted_inv in Hs as [Hl Hh].
      constructor; [apply IH, Hl|].
      destruct l as [|z l]; simpl.
      * constructor. unfold key_le; lia.
      * destruct (key x <=? key z); constructor; unfold key_le;
          [lia|inversion Hh; assumption].
Qed.

Lemma sort_by_sorted : forall l, Sorted key_le (sort_by key l).
Proof.
  induction l as [|x l IH]; simpl; [constructor|]. apply insert_by_sorted, IH.
Qed.

Lemma key_le_trans : Relations_1.Transitive key_le.
Proof. intros a b c; unfold key_le; lia. Qed.

Lemma sorted_perm_unique : forall l1 l2,
  StronglySorted key_le l1 -> StronglySorted key_le l2 ->
  Permutation l1 l2 -> NoDup (map key l1) -> l1 = l2.
Proof.
  induction l1 as [|a l1 IH]; intros l2 H1 H2 Hp Hn.
  - symmetry; apply Permutation_nil, Hp.
  - destruct l2 as [|b l2]; [apply Permutation_sym, Permutation_nil_cons in Hp; contradiction|].
    apply StronglySorted_inv in H1 as [H1 F1]. apply StronglySorted_inv in H2 as [H2 F2].
    inversion Hn as [|? ? Hnin Hn']; subst.
    assert (Ha : In a (b :: l2)) by (eapply Permutation_in; [exact Hp|left; reflexivity]).
    assert (Hb : In b (a :: l1))
      by (eapply Permutation_in; [apply Permutation_sym, Hp|left; reflexivity]).
    destruct Ha as [<-|Ha].
    + f_equal. apply IH; auto. eapply Permutation_cons_inv; exact Hp.
    + destruct Hb as [->|Hb]; [f_equal; apply IH; auto; eapply Permutation_cons_inv; exact Hp|].
      rewrite Forall_forall in F1, F2.
      specialize (F1 _ Hb). specialize (F2 _ Ha). unfold key_le in F1, F2.
      exfalso; apply Hnin. replace (key a) with (key b) by lia. apply in_map, Hb.
Qed.

Lemma strongly_sorted_of_keys : forall l,
  StronglySorted le (map key l) -> StronglySorted key_le l.
Proof.
  induction l as [|x l IH]; simpl; intros H; [constructor|].
  apply StronglySorted_inv in H as [H F]. constructor; [apply IH, H|].
  apply Forall_forall; intros y Hy. rewrite Forall_forall in F.
  apply F, in_map, Hy.
Qed.

End Sorting.

Lemma seq_strongly_sorted : forall n a, StronglySorted le (seq a n).
Proof.
  induction n as [|n IH]; intros a; simpl; constructor; [apply IH|].
  apply Forall_forall; intros x Hx. apply in_seq in Hx. lia.
Qed.

Lemma dict_get_set_same : forall d k v, dict_get (dict_set d k v) k = Some v.
Proof.
  induction d as [|[k' v'] d IH]; intros k v; simpl.
  - destruct (str_eqb k k) eqn:E; [reflexivity|].
    exfalso; assert (k = k) as Hk by reflexivity; apply str_eqb_eq in Hk; congruence.
  - destruct (str_eqb k' k) eqn:E; simpl; rewrite E; [reflexivity|apply IH].
Qed.

Lemma dict_set_other : forall d k k' v, k' <> k ->
  dict_get (dict_set d k v) k' = dict_get d k'.
Proof.
  induction d as [|[k0 v0] d IH]; intros k k' v Hne; simpl.
  - destruct (str_eqb k k') eqn:E; [apply str_eqb_eq in E; congruence|reflexivity].
  - destruct (str_eqb k0 k) eqn:E; simpl.
    + apply str_eqb_eq in E; subst k0.
      destruct (str_eqb k k') eqn:E'; [apply str_eqb_eq in E'; congruence|reflexivity].
    + destruct (str_eqb k0 k'); [reflexivity|apply IH, Hne].
Qed.

Lemma url_order_loop_notin : forall us i d k, ~ In k us ->
  dict_get (url_order_loop i us d) k = dict_get d k.
Proof.
  induction us as [|u us IH]; intros i d k Hk; simpl; [reflexivity|].
  rewrite IH; [|intros H; apply Hk; right; exact H].
  apply dict_set_other. intros ->; apply Hk; left; reflexivity.
Qed.

Lemma url_order_loop_nth : forall us i d j, NoDup us -> j < List.length us ->
  dict_get (url_order_loop i us d) (nth j us []) = Some (i + j).
Proof.
  induction us as [|u us IH]; intros i d j Hn Hj; simpl in *; [lia|].
  inversion Hn as [|? ? Hu Hn']; subst.
  destruct j as [|j].
  - rewrite url_order_loop_notin by exact Hu. rewrite dict_get_set_same, Nat.add_0_r.
    reflexivity.
  - rewrite IH by (auto; lia). f_equal; lia.
Qed.

Lemma map_nth_seq_self {A} (d : A) : forall l,
  map (fun i => nth i l d) (seq 0 (List.length l)) = l.
Proof.
  induction l as [|x l IH]; simpl; [reflexivity|]. f_equal.
  rewrite <- seq_shift, map_map. exact IH.
Qed.

Lemma collect_original_url tn tc tf mr urls i :
  original_url (collect tn tc tf mr urls i) = nth i urls [].
Proof.
  unfold collect, future_result. destruct (tf i) as [e|]; [reflexivity|].
  rewrite solve_single_eq.
  destruct (dispatch _ _ _ _ _) as [[su|e] s2]; reflexivity.
Qed.

Lemma order_key_collect tn tc tf mr urls i :
  NoDup urls -> i < List.length urls ->
  order_key urls (collect tn tc tf mr urls i) = i.
Proof.
  intros Hn Hi. unfold order_key, url_order. rewrite collect_original_url.
  rewrite url_order_loop_nth by assumption. reflexivity.
Qed.

(** C2 (as amended): whatever order the tasks complete in, [solve_batch]
    returns one result per submitted task ([len(urls)] results, a
    permutation of the task results); when the input URLs are pairwise
    distinct, result [i] is the result of task [i], so its [original_url]
    is [urls[i]]. *)
Theorem solve_batch_order tn tc tf max_retries urls completion :
  Permutation completion (seq 0 (List.length urls)) ->
  List.length (solve_batch tn tc tf max_retries urls completion) = List.length urls /\
  Permutation (solve_batch tn tc tf max_retries urls completion)
              (map (collect tn tc tf max_retries urls) (seq 0 (List.length urls))) /\
  (NoDup urls ->
   solve_batch tn tc tf max_retries urls completion =
     map (collect tn tc tf max_retries urls) (seq 0 (List.length urls)) /\
   map original_url (solve_batch tn tc tf max_retries urls completion) = urls).
Proof.
  intros Hc.
  set (f := collect tn tc tf max_retries urls).
  set (key := order_key urls).
  assert (Hp : Permutation (solve_batch tn tc tf max_retries urls completion)
                 (map f (seq 0 (List.length urls)))).
  { unfold solve_batch. fold f key. rewrite sort_by_perm.
    apply Permutation_map, Hc. }
  split; [rewrite (Permutation_length Hp), length_map, length_seq; reflexivity|].
  split; [exact Hp|].
  intros Hn.
  assert (Hkeys : map key (map f (seq 0 (List.length urls))) = seq 0 (List.length urls)).
  { rewrite map_map. rewrite <- (map_id (seq 0 (List.length urls))) at 2.
    apply map_ext_in. intros i Hi. apply in_seq in Hi.
    apply order_key_collect; [exact Hn|lia]. }
  assert (Heq : solve_batch tn tc tf max_retries urls completion =
                map f (seq 0 (List.length urls))).
  { apply (sorted_perm_unique key).
    - apply Sorted_StronglySorted; [apply key_le_trans|].
      unfold solve_batch. apply sort_by_sorted.
    - apply strongly_sorted_of_keys. rewrite Hkeys. apply seq_strongly_sorted.
    - exact Hp.
    - rewrite (Permutation_map key Hp) at 1.
      exact (eq_ind_r (fun l => NoDup l) (seq_NoDup _ _) Hkeys). }
  split; [exact Heq|].
  rewrite Heq, map_map.
  rewrite <- (map_nth_seq_self [] urls) at 2.
  apply map_ext. intros i. apply collect_original_url.
Qed.

Definition url_a : str := "https://example.com/a".
Definition url_b : str := "https://example.com/b".
Definition dup_urls : list str := [url_a; url_b; url_a].

Definition three_urls : list str := [url_a; url_b; shortconnect_url].

Lemma solve_batch_order_witness :
  Permutation [2; 0; 1] (seq 0 (List.length three_urls)) /\
  NoDup three_urls /\
  map original_url
    (solve_batch (fun _ => timeout_net) (fun _ => ticking_clock) (fun _ => None) 3
       three_urls [2; 0; 1]) = three_urls.
Proof.
  assert (Hp : Permutation [2; 0; 1] (seq 0 (List.length three_urls))).
  { simpl. apply (Permutation_trans (l' := [0; 2; 1])); [apply perm_swap|].
    apply perm_skip, perm_swap. }
  assert (Hn : NoDup three_urls).
  { unfold three_urls, url_a, url_b, shortconnect_url.
    repeat constructor; simpl; intuition discriminate. }
  split; [exact Hp|]. split; [exact Hn|].
  exact (proj2 (proj2 (proj2 (solve_batch_order (fun _ => timeout_net)
           (fun _ => ticking_clock) (fun _ => None) 3 three_urls [2; 0; 1] Hp)) Hn)).
Defined.

(** C2 as stated fails for a repeated URL: with [urls = [a; b; a]] (tasks
    completing in submission order) the dict [url_order] maps [a] to its
    last index 2, so the sorted results are for [b; a; a]. *)
Lemma duplicate_urls_misordered :
  map original_url
    (solve_batch (fun _ => timeout_net) (fun _ => ticking_clock) (fun _ => None) 3
       dup_urls [0; 1; 2]) = [url_b; url_a; url_a] /\
  [url_b; url_a; url_a] <> dup_urls.
Proof.
  split; [vm_compute; reflexivity|].
  unfold dup_urls, url_a, url_b; simpl. intros H; inversion H.
Qed.

(** ** C5: service detection *)

(** The pattern prefix [https?://(?:www\.)?host] has no repetition and no
    group; [words] lists the strings it matches (up to case). *)
Fixpoint starfree (r : rx) : bool :=
  match r with
  | REps | RLit _ => true
  | RSeq a b => starfree a && starfree b
  | ROpt a => starfree a
  | _ => false
  end.

Fixpoint words (r : rx) : list str :=
  match r with
  | REps => [[]]
  | RLit c => [[c]]
  | RSeq a b => flat_map (fun w1 => map (fun w2 => w1 ++ w2) (words b)) (words a)
  | ROpt a => words a ++ [[]]
  | _ => []
  end.

Fixpoint ci_prefix (w s : str) : bool :=
  match w, s with
  | [], _ => true
  | c :: w', x :: s' => char_eqb true c x && ci_prefix w' s'
  | _ :: _, [] => false
  end.

Lemma ci_prefix_app : forall w1 w2 s,
  ci_prefix w1 s = true -> ci_prefix w2 (skipn (List.length w1) s) = true ->
  ci_prefix (w1 ++ w2) s = true.
Proof.
  induction w1 as [|c w1 IH]; intros w2 s H1 H2; simpl in *; [exact H2|].
  destruct s as [|x s]; [discriminate|].
  apply andb_prop in H1 as [Hc H1]. rewrite Hc, (IH _ _ H1 H2). reflexivity.
Qed.

Lemma m_prefix {T} (r : rx) : starfree r = true ->
  forall s cap k (x : T), m true r s cap k = Some x ->
  exists w, In w (words r) /\ ci_prefix w s = true /\
            k (skipn (List.length w) s) cap = Some x.
Proof.
  induction r as [| c | p | a IHa b IHb | p mn | a IHa | a IHa];
    intros Hsf s cap k x H; simpl in Hsf; try discriminate; cbn [m] in H.
  - exists []; simpl; auto.
  - destruct s as [|y t]; [discriminate|].
    destruct (char_eqb true c y) eqn:E; [|discriminate].
    exists [c]; split; [left; reflexivity|].
    split; [cbn [ci_prefix]; rewrite E; reflexivity|exact H].
  - apply andb_prop in Hsf as [Ha Hb].
    destruct (IHa Ha _ _ _ _ H) as (w1 & Hw1 & Hp1 & H1).
    destruct (IHb Hb _ _ _ _ H1) as (w2 & Hw2 & Hp2 & H2).
    exists (w1 ++ w2). split; [|split].
    + apply in_flat_map. exists w1; split; [exact Hw1|]. apply in_map, Hw2.
    + apply ci_prefix_app; assumption.
    + rewrite length_app, Nat.add_comm, <- skipn_skipn. exact H2.
  - destruct (m true a s cap k) eqn:E.
    + inversion H; subst.
      destruct (IHa Hsf _ _ _ _ E) as (w & Hw & Hp & Hk).
      exists w; split; [apply in_or_app; left; exact Hw|auto].
    + exists []; split; [apply in_or_app; right; left; reflexivity|simpl; auto].
Qed.

(** A service pattern: a star-free prefix followed by a tail. *)
Definition shaped (p : rx) : bool :=
  match p with RSeq pre _ => starfree pre | _ => false end.

Definition prefixes_of (p : rx) : list str :=
  match p with RSeq pre _ => words pre | _ => [] end.

Lemma matches_prefix p url :
  shaped p = true -> pattern_matches p url = true ->
  exists w, In w (prefixes_of p) /\ ci_prefix w url = true.
Proof.
  destruct p as [| | | pre tail | | |]; simpl; try discriminate.
  intros Hsf Hm. unfold pattern_matches, re_match in Hm. simpl in Hm.
  destruct (m true pre url None _) eqn:E; [|discriminate].
  destruct (m_prefix pre Hsf _ _ _ _ E) as (w & Hw & Hp & _). eauto.
Qed.

Lemma lower_eq_of_char_eqb c x : char_eqb true c x = true -> lower c = lower x.
Proof. simpl; apply Ascii.eqb_eq. Qed.

Lemma ci_prefix_common : forall w1 w2 s,
  ci_prefix w1 s = true -> ci_prefix w2 s = true ->
  ci_prefix w1 w2 = true \/ ci_prefix w2 w1 = true.
Proof.
  induction w1 as [|c w1 IH]; intros w2 s H1 H2; [left; reflexivity|].
  destruct w2 as [|d w2]; [right; reflexivity|].
  destruct s as [|x s]; [discriminate|]. simpl in H1, H2.
  apply andb_prop in H1 as [Hc H1]. apply andb_prop in H2 as [Hd H2].
  apply lower_eq_of_char_eqb in Hc. apply lower_eq_of_char_eqb in Hd.
  assert (Hcd : char_eqb true c d = true) by (simpl; apply Ascii.eqb_eq; congruence).
  assert (Hdc : char_eqb true d c = true) by (simpl; apply Ascii.eqb_eq; congruence).
  cbn [ci_prefix]; rewrite Hcd, Hdc. exact (IH _ _ H1 H2).
Qed.

Definition pats_disjoint (p1 p2 : rx) : bool :=
  forallb (fun w1 => forallb (fun w2 => negb (ci_prefix w1 w2) && negb (ci_prefix w2 w1))
                             (prefixes_of p2))
          (prefixes_of p1).

Lemma pats_disjoint_sound p1 p2 url :
  shaped p1 = true -> shaped p2 = true -> pats_disjoint p1 p2 = true ->
  pattern_matches p1 url = true -> pattern_matches p2 url = false.
Proof.
  intros S1 S2 D M1. destruct (pattern_matches p2 url) eqn:M2; [|reflexivity].
  destruct (matches_prefix p1 url S1 M1) as (w1 & Hw1 & P1).
  destruct (matches_prefix p2 url S2 M2) as (w2 & Hw2 & P2).
  unfold pats_disjoint in D. rewrite forallb_forall in D.
  specialize (D w1 Hw1). rewrite forallb_forall in D. specialize (D w2 Hw2).
  apply andb_prop in D as [D1 D2]. apply negb_true_iff in D1, D2.
  destruct (ci_prefix_common _ _ _ P1 P2); congruence.
Qed.

Definition entries_disjoint (e1 e2 : str * list rx) : bool :=
  forallb (fun p1 => forallb (pats_disjoint p1) (snd e2)) (snd e1).

Fixpoint ordered_disjoint (sp : list (str * list rx)) : bool :=
  match sp with
  | [] => true
  | e :: rest => forallb (entries_disjoint e) rest && ordered_disjoint rest
  end.

Definition all_shaped (sp : list (str * list rx)) : bool :=
  forallb (fun e => forallb shaped (snd e)) sp.

Lemma service_patterns_checked :
  all_shaped service_patterns = true /\ ordered_disjoint service_patterns = true.
Proof. split; vm_compute; reflexivity. Qed.

Lemma detect_loop_first : forall sp service patterns p url,
  all_shaped sp = true -> ordered_disjoint sp = true ->
  In (service, patterns) sp -> In p patterns -> pattern_matches p url = true ->
  detect_loop sp url = service.
Proof.
  induction sp as [|[s0 ps0] rest IH]; intros service patterns p url Hs Hd Hin Hp Hm;
    [destruct Hin|].
  simpl in Hs, Hd |- *. apply andb_prop in Hs as [Hs0 Hs]. apply andb_prop in Hd as [Hd0 Hd].
  destruct Hin as [Heq|Hin].
  - inversion Heq; subst.
    assert (Hex : existsb (fun q => pattern_matches q url) patterns = true)
      by (apply existsb_exists; eauto).
    rewrite Hex; reflexivity.
  - assert (Hex : existsb (fun q => pattern_matches q url) ps0 = false).
    { apply not_true_iff_false. intros Hex. apply existsb_exists in Hex as (q & Hq & Mq).
      rewrite forallb_forall in Hd0. specialize (Hd0 _ Hin).
      unfold entries_disjoint in Hd0. rewrite forallb_forall in Hd0.
      specialize (Hd0 _ Hq). rewrite forallb_forall in Hd0. specialize (Hd0 _ Hp).
      rewrite forallb_forall in Hs0.
      unfold all_shaped in Hs. rewrite forallb_forall in Hs.
      specialize (Hs _ Hin). simpl in Hs. rewrite forallb_forall in Hs.
      rewrite (pats_disjoint_sound q p url (Hs0 _ Hq) (Hs _ Hp) Hd0 Mq) in Hm.
      discriminate. }
    rewrite Hex. eapply IH; eauto.
Qed.

Lemma detect_loop_none : forall sp url,
  (forall service patterns p, In (service, patterns) sp -> In p patterns ->
     pattern_matches p url = false) ->
  detect_loop sp url = unknown.
Proof.
  induction sp as [|[s0 ps0] rest IH]; intros url H; simpl; [reflexivity|].
  assert (Hex : existsb (fun q => pattern_matches q url) ps0 = false).
  { apply not_true_iff_false. intros Hex. apply existsb_exists in Hex as (q & Hq & Mq).
    rewrite (H s0 ps0 q (or_introl eq_refl) Hq) in Mq. discriminate. }
  rewrite Hex. apply IH. intros s ps p Hin Hp. eapply H; [right|]; eauto.
Qed.

Lemma detect_loop_found : forall sp url,
  detect_loop sp url = unknown \/
  exists patterns p, In (detect_loop sp url, patterns) sp /\ In p patterns /\
                     pattern_matches p url = true.
Proof.
  induction sp as [|[s0 ps0] rest IH]; intros url; simpl; [left; reflexivity|].
  destruct (existsb (fun q => pattern_matches q url) ps0) eqn:Hex.
  - right. apply existsb_exists in Hex as (q & Hq & Mq).
    exists ps0, q; split; [left; reflexivity|auto].
  - destruct (IH url) as [H|(ps & p & Hin & Hp & Hm)]; [left; exact H|].
    right; exists ps, p; split; [right; exact Hin|auto].
Qed.

(** C5: [detect_service] is a function of the URL alone.  A URL matched
    (anchored at the start, ignoring case) by any pattern of a service, in
    particular its first-listed one, is classified as that service (the
    services' patterns exclude each other, so the service is also the
    first in declaration order with a matching pattern); a URL matched by
    no pattern is [unknown]; any other answer is a service one of whose
    patterns matches. *)
Theorem detect_service_spec url :
  (forall service patterns p, In (service, patterns) service_patterns -> In p patterns ->
     pattern_matches p url = true -> detect_service url = service) /\
  ((forall service patterns p, In (service, patterns) service_patterns -> In p patterns ->
     pattern_matches p url = false) -> detect_service url = unknown) /\
  (detect_service url = unknown \/
   exists patterns p, In (detect_service url, patterns) service_patterns /\
                      In p patterns /\ pattern_matches p url = true).
Proof.
  destruct service_patterns_checked as [Hs Hd].
  split; [|split].
  - intros service patterns p Hin Hp Hm. eapply detect_loop_first; eauto.
  - apply detect_loop_none.
  - apply detect_loop_found.
Qed.

Lemma detect_service_spec_witness :
  In (("adfly" : str), [host_pat "adf.ly/" digits_slash_rest;
                        host_pat "adfoc.us/" digits_slash_rest]) service_patterns /\
  pattern_matches (host_pat "adf.ly/" digits_slash_rest) adfly_url = true /\
  detect_service adfly_url = "adfly".
Proof.
  assert (Hin : In (("adfly" : str), [host_pat "adf.ly/" digits_slash_rest;
                                      host_pat "adfoc.us/" digits_slash_rest])
                   service_patterns) by (left; reflexivity).
  assert (Hm : pattern_matches (host_pat "adf.ly/" digits_slash_rest) adfly_url = true)
    by (vm_compute; reflexivity).
  split; [exact Hin|]. split; [exact Hm|].
  exact (proj1 (detect_service_spec adfly_url) _ _ _ Hin (or_introl eq_refl) Hm).
Defined.

(** * The rest of [export_results]: the [csv] and [text] branches *)

Definition nl : ascii := ascii_of_nat 10.
Definition dq : ascii := ascii_of_nat 34.

(** ['\n'.join(lines)] *)
Fixpoint join_lines (lines : list str) : str :=
  match lines with
  | [] => []
  | [l] => l
  | l :: rest => l ++ nl :: join_lines rest
  end.

(** Decimal digits of a non-negative integer; [fuel] bounds their number. *)
Fixpoint zdigits (fuel : nat) (n : Z) (acc : str) : str :=
  match fuel with
  | 0 => acc
  | S f =>
      let acc' := ascii_of_nat (48 + Z.to_nat (n mod 10)) :: acc in
      if (n <? 10)%Z then acc' else zdigits f (n / 10)%Z acc'
  end.

(** [str(z)] of a Python [int]. *)
Definition z_str (z : Z) : str :=
  let n := Z.abs z in
  (if (z <? 0)%Z then "-" else "") ++ zdigits (S (Z.to_nat (Z.log2 n))) n [].

(** [str(b)] of a Python [bool]. *)
Definition py_bool_str (b : bool) : str := if b then "True" else "False".

(** [x or ""] on an [Optional[str]]. *)
Definition opt_or_empty (o : option str) : str :=
  match o with Some s => s | None => [] end.

(** [f"{x}"] on an [Optional[str]]. *)
Definition opt_repr (o : option str) : str :=
  match o with Some s => s | None => "None" end.

Definition csv_header : str :=
  "original_url,service,solved_url,success,response_time,error".

Section TextExport.

(** [str(t)] of a non-zero float [response_time], and its [:.2f] format. *)
Variable float_str : Z -> str.
Variable format_2f : Z -> str.
(** The check mark U+2713 and the ballot X U+2717 of the text report, which
    lie outside U+0000..U+00FF. *)
Variable check_mark cross_mark : str.
Variable json_dumps : list (list (str * json_value)) -> str.

(** [result.response_time or 0]: [None] and [0.0] are both falsy. *)
Definition or_zero_str (rt : option Z) : str :=
  match rt with
  | Some t => if (t =? 0)%Z then "0" else float_str t
  | None => "0"
  end.

Definition csv_row (result : SolveResult) : str :=
  [dq] ++ original_url result ++ [dq; ","%char; dq] ++ service result
  ++ [dq; ","%char; dq] ++ opt_or_empty (solved_url result) ++ [dq; ","%char]
  ++ py_bool_str (success result) ++ [","%char]
  ++ or_zero_str (response_time result) ++ [","%char; dq]
  ++ opt_or_empty (error result) ++ [dq].

Definition export_results_csv (results : list SolveResult) : str :=
  join_lines (csv_header :: map csv_row results).

(** [f"{result.response_time:.2f}"]: [None] has no [.2f] format. *)
Definition format_time (rt : option Z) : M str :=
  match rt with
  | Some t => ret (format_2f t)
  | None => raise (OtherException "unsupported format string passed to NoneType.__format__")
  end.

Definition status_line (result : SolveResult) : str :=
  if success result then "   " ++ check_mark ++ " Solved: " ++ opt_repr (solved_url result)
  else "   " ++ cross_mark ++ " Failed: "
       ++ match error result with
          | Some e => if str_eqb e [] then "Unknown error" else e
          | None => "Unknown error"
          end.

(** [for i, result in enumerate(results, 1)], appending to [output]. *)
Fixpoint text_loop (i : nat) (results : list SolveResult) (output : list str)
  : M (list str) :=
  match results with
  | [] => ret output
  | result :: rest =>
      let output := output ++ [z_str (Z.of_nat i) ++ ". " ++ original_url result;
                               "   Service: " ++ service result;
                               status_line result] in
      t <- format_time (response_time result) ;;
      text_loop (S i) rest (output ++ ["   Time: " ++ t ++ "s"; []])
  end.

Definition export_results_text (results : list SolveResult) : M str :=
  output <- text_loop 1 results [] ;;
  ret (join_lines output).

(** [export_results(results, format)]: any format but [json] and [csv] is text. *)
Definition export_results (results : list SolveResult) (format : str) : M str :=
  if str_eqb format "json" then export_results_json json_dumps results
  else if str_eqb format "csv" then ret (export_results_csv results)
  else export_results_text results.

End TextExport.

(** ** Properties of the [csv] and [text] branches *)

Lemma join_lines_count : forall ls,
  ls <> [] -> (forall l, In l ls -> ~ In nl l) ->
  count_occ ascii_dec (join_lines ls) nl = List.length ls - 1.
Proof.
  induction ls as [|l ls IH]; intros Hne Hl; [congruence|].
  destruct ls as [|l' ls].
  - simpl. apply count_occ_not_In, Hl; left; reflexivity.
  - change (join_lines (l :: l' :: ls)) with (l ++ nl :: join_lines (l' :: ls)).
    rewrite count_occ_app, (proj1 (count_occ_not_In _ _ _) (Hl l (or_introl eq_refl))).
    cbn [count_occ]. destruct (ascii_dec nl nl) as [_|n]; [|congruence].
    rewrite IH; [simpl; lia|discriminate|intros l0 H0; apply Hl; right; exact H0].
Qed.

Ltac no_nl_lit :=
  repeat match goal with
  | H : In _ (_ :: _) |- _ => destruct H as [H|H]; [vm_compute in H; discriminate H|]
  | H : In _ [] |- _ => destruct H
  end.

Lemma csv_row_no_nl fs r :
  (forall t, ~ In nl (fs t)) ->
  ~ In nl (original_url r) -> ~ In nl (service r) ->
  ~ In nl (opt_or_empty (solved_url r)) -> ~ In nl (opt_or_empty (error r)) ->
  ~ In nl (csv_row fs r).
Proof.
  intros Hf H1 H2 H3 H4 H. unfold csv_row in H.
  repeat rewrite in_app_iff in H.
  repeat destruct H as [H|H]; try contradiction; try (vm_compute in H; discriminate H).
  - unfold py_bool_str in H; destruct (success r); simpl in H;
      repeat destruct H as [H|H]; try contradiction; vm_compute in H; discriminate H.
  - unfold or_zero_str in H. destruct (response_time r) as [t|].
    + destruct (t =? 0)%Z; [|exact (Hf t H)].
      simpl in H; destruct H as [H|H]; [vm_compute in H; discriminate H|exact H].
    + simpl in H; destruct H as [H|H]; [vm_compute in H; discriminate H|exact H].
Qed.

Lemma text_loop_ok f2 cm xm : forall results i output s,
  Forall (fun r => response_time r <> None) results ->
  exists out, text_loop f2 cm xm i results output s = (Ok out, s).
Proof.
  induction results as [|r rs IH]; intros i output s Hall; simpl.
  - eexists; reflexivity.
  - inversion Hall as [|? ? Hr Hrs]; subst.
    destruct (response_time r) as [t|] eqn:E; [|congruence].
    cbv [bind format_time ret]. apply IH, Hrs.
Qed.

Lemma text_loop_none f2 cm xm : forall results i output s,
  (exists r, In r results /\ response_time r = None) ->
  text_loop f2 cm xm i results output s =
  (Exc (OtherException "unsupported format string passed to NoneType.__format__"), s).
Proof.
  induction results as [|r rs IH]; intros i output s (x & Hin & Hx); [destruct Hin|].
  simpl. cbv [bind format_time ret raise].
  destruct Hin as [<-|Hin].
  - rewrite Hx. reflexivity.
  - destruct (response_time r); [|reflexivity]. apply IH. exists x; auto.
Qed.

Lemma collect_time_fault tn tc tf mr urls i e :
  tf i = Some e -> response_time (collect tn tc tf mr urls i) = None.
Proof. intros H. unfold collect, future_result. rewrite H. reflexivity. Qed.

Lemma collect_time_ok tn tc tf mr urls i :
  tf i = None -> response_time (collect tn tc tf mr urls i) <> None.
Proof.
  intros H. unfold collect, future_result. rewrite H, solve_single_eq.
  destruct (dispatch _ _ _ _ _) as [o s2]. simpl. discriminate.
Qed.

(** The [csv] branch writes the header line, then one line per result:
    when no field and no printed time holds a newline, the output is the
    header followed by exactly [len(results)] newline characters. *)
Theorem export_csv_line_count fs results :
  (forall t, ~ In nl (fs t)) ->
  Forall (fun r => ~ In nl (original_url r) /\ ~ In nl (service r) /\
                   ~ In nl (opt_or_empty (solved_url r)) /\
                   ~ In nl (opt_or_empty (error r))) results ->
  exists rest, export_results_csv fs results = csv_header ++ rest /\
               count_occ ascii_dec rest nl = List.length results.
Proof.
  intros Hf Hall. unfold export_results_csv.
  destruct results as [|r rs].
  - exists []. split; [symmetry; apply app_nil_r|reflexivity].
  - exists (nl :: join_lines (map (csv_row fs) (r :: rs))). split; [reflexivity|].
    cbn [count_occ]. destruct (ascii_dec nl nl) as [_|n]; [|congruence].
    rewrite join_lines_count; [rewrite length_map; simpl; lia|discriminate|].
    intros l Hl. apply in_map_iff in Hl. destruct Hl as (x & <- & Hx).
    rewrite Forall_forall in Hall. destruct (Hall x Hx) as (H1 & H2 & H3 & H4).
    apply csv_row_no_nl; assumption.
Qed.

Definition nl_free_result (u : str) : SolveResult :=
  mkSolveResult u "adfly" None false None (Some 0%Z) None.

Definition half_str (t : Z) : str := "0.5".

Lemma export_csv_line_count_witness :
  (forall t, ~ In nl (half_str t)) /\
  exists rest, export_results_csv half_str [nl_free_result "a"; nl_free_result "b"]
               = csv_header ++ rest /\ count_occ ascii_dec rest nl = 2.
Proof.
  assert (Hf : forall t, ~ In nl (half_str t))
    by (intros t; vm_compute; intros H;
        repeat destruct H as [H|H]; solve [discriminate H | exact H]).
  split; [exact Hf|].
  apply (export_csv_line_count half_str [nl_free_result "a"; nl_free_result "b"] Hf).
  repeat constructor; vm_compute; intros H;
    repeat destruct H as [H|H]; solve [discriminate H | exact H].
Defined.

(** The [text] branch formats every [response_time] with [:.2f]: it
    returns a report exactly when no result has [response_time = None],
    and otherwise raises the [TypeError] of [None.__format__]; it has no
    other effect. *)
Theorem export_text_none_time f2 cm xm results s :
  ((exists out, export_results_text f2 cm xm results s = (Ok out, s)) <->
   Forall (fun r => response_time r <> None) results) /\
  ((exists r, In r results /\ response_time r = None) ->
   export_results_text f2 cm xm results s =
   (Exc (OtherException "unsupported format string passed to NoneType.__format__"), s)).
Proof.
  assert (Hnone : (exists r, In r results /\ response_time r = None) ->
     export_results_text f2 cm xm results s =
     (Exc (OtherException "unsupported format string passed to NoneType.__format__"), s)).
  { intros H. unfold export_results_text, bind. rewrite text_loop_none by exact H.
    reflexivity. }
  split; [split|exact Hnone].
  - intros [out Hout]. apply Forall_forall. intros r Hr Hn.
    rewrite Hnone in Hout by (exists r; auto). discriminate Hout.
  - intros Hall. destruct (text_loop_ok f2 cm xm results 1 [] s Hall) as [out Hout].
    exists (join_lines out). unfold export_results_text, bind. rewrite Hout. reflexivity.
Qed.

Definition timed_result : SolveResult :=
  mkSolveResult "https://example.com/a" "unknown" None false None (Some 2%Z) None.

Definition untimed_result : SolveResult :=
  mkSolveResult "https://example.com/b" "unknown" None false (Some ("boom" : str)) None None.

Lemma export_text_none_time_witness :
  (exists r, In r [timed_result; untimed_result] /\ response_time r = None) /\
  export_results_text (fun _ => "2.00") "v" "x" [timed_result; untimed_result] st0 =
  (Exc (OtherException "unsupported format string passed to NoneType.__format__"), st0).
Proof.
  assert (H : exists r, In r [timed_result; untimed_result] /\ response_time r = None)
    by (exists untimed_result; split; [right; left; reflexivity|reflexivity]).
  split; [exact H|].
  exact (proj2 (export_text_none_time (fun _ => "2.00") "v" "x"
                  [timed_result; untimed_result] st0) H).
Defined.

(** [solve_batch] composed with the [text] export: a batch in which one
    collected task faults contains the synthesized result with
    [response_time = None], so exporting it as text raises; a batch in
    which no collected task faults exports without error. *)
Theorem batch_text_export tn tc tf mr urls completion f2 cm xm s :
  ((exists i e, In i completion /\ tf i = Some e) ->
   export_results_text f2 cm xm (solve_batch tn tc tf mr urls completion) s =
   (Exc (OtherException "unsupported format string passed to NoneType.__format__"), s)) /\
  ((forall i, In i completion -> tf i = None) ->
   exists out, export_results_text f2 cm xm (solve_batch tn tc tf mr urls completion) s
               = (Ok out, s)).
Proof.
  assert (Hin : forall x, In x (solve_batch tn tc tf mr urls completion) ->
                exists i, In i completion /\ x = collect tn tc tf mr urls i).
  { intros x Hx. unfold solve_batch in Hx.
    apply (Permutation_in _ (sort_by_perm _ _)) in Hx.
    apply in_map_iff in Hx. destruct Hx as (i & <- & Hi). eauto. }
  split.
  - intros (i & e & Hi & He). apply (proj2 (export_text_none_time f2 cm xm _ s)).
    exists (collect tn tc tf mr urls i). split; [|apply (collect_time_fault _ _ _ _ _ _ e He)].
    unfold solve_batch. apply (Permutation_in _ (Permutation_sym (sort_by_perm _ _))).
    apply in_map, Hi.
  - intros Hok. apply (proj1 (export_text_none_time f2 cm xm _ s)).
    apply Forall_forall. intros x Hx. destruct (Hin x Hx) as (i & Hi & ->).
    apply collect_time_ok, Hok, Hi.
Qed.

Definition fault_at_1 (i : nat) : option exn :=
  if i =? 1 then Some (OtherException "worker died") else None.

Lemma batch_text_export_witness :
  (exists i e, In i [1; 0] /\ fault_at_1 i = Some e) /\
  export_results_text (fun _ => "1.00") "v" "x"
    (solve_batch (fun _ => timeout_net) (fun _ => ticking_clock) fault_at_1 3
       [url_a; url_b] [1; 0]) st0 =
  (Exc (OtherException "unsupported format string passed to NoneType.__format__"), st0).
Proof.
  assert (H : exists i e, In i [1; 0] /\ fault_at_1 i = Some e)
    by (exists 1, (OtherException "worker died"); split; [left; reflexivity|reflexivity]).
  split; [exact H|].
  exact (proj1 (batch_text_export (fun _ => timeout_net) (fun _ => ticking_clock) fault_at_1 3
                  [url_a; url_b] [1; 0] (fun _ => "1.00") "v" "x" st0) H).
Defined.

(** * [captcha_solver.py] *)

Module CaptchaSolver.

Record CaptchaResult : Type := mkCaptchaResult {
  success : bool;
  captcha_type : str;
  solution : option str;
  confidence : Q;
  processing_time : Z;
  error : option str;
  metadata : option str }.   (* [{'expression': e}] is [Some e] *)

(** [str.strip()]: [str.isspace] on U+0000..U+00FF is [is_space]. *)
Fixpoint lstrip_ws (s : str) : str :=
  match s with
  | c :: t => if is_space c then lstrip_ws t else s
  | [] => []
  end.

Definition strip (s : str) : str := rev (lstrip_ws (rev (lstrip_ws s))).

Definition starts_with (p s : str) : bool := str_eqb (firstn (List.length p) s) p.

(** [s.split(sep)] for a one-character separator. *)
Fixpoint split_on (sep : ascii) (s : str) : list str :=
  match s with
  | [] => [[]]
  | c :: t =>
      if Ascii.eqb c sep then [] :: split_on sep t
      else match split_on sep t with
           | w :: ws => (c :: w) :: ws
           | [] => [[c]]
           end
  end.

(** [post_process_text]: the [replacements] dict in insertion order. *)
Definition replacements : list (ascii * str) :=
  [("0"%char, "O" : str); ("1"%char, "I" : str); ("5"%char, "S" : str);
   ("8"%char, "B" : str); (" "%char, [])].

(** [text.replace(old, new)] for a one-character [old]. *)
Definition replace_char (old : ascii) (new text : str) : str :=
  flat_map (fun c => if Ascii.eqb c old then new else [c]) text.

(** [str.upper] on the ASCII letters and digits, the only characters
    left when it is applied. *)
Definition upper_ascii (c : ascii) : ascii :=
  let n := nat_of_ascii c in
  if (97 <=? n) && (n <=? 122) then ascii_of_nat (n - 32) else c.

Definition post_process_text (text : str) : str :=
  let text := filter is_alnum text in                 (* re.sub(r'[^a-zA-Z0-9]', '', text) *)
  let text := fold_left (fun t (p : ascii * str) => replace_char (fst p) (snd p) t)
                        replacements text in
  map upper_ascii text.

(** Regular expressions with several groups, on top of [m]: the groups
    are recorded in order, each with the span its sub-pattern matched. *)
Inductive piece : Type :=
| Plain (r : rx)
| Group (r : rx).

Fixpoint mg {T} (ps : list piece) (s : str) (groups : list str)
  (k : str -> list str -> option T) : option T :=
  match ps with
  | [] => k s groups
  | Plain r :: ps' => m false r s None (fun s' _ => mg ps' s' groups k)
  | Group r :: ps' =>
      m false r s None
        (fun s' _ => mg ps' s' (groups ++ [firstn (List.length s - List.length s') s]) k)
  end.

(** [re.search(pattern, text)], giving the groups of the leftmost match. *)
Fixpoint re_search_groups (ps : list piece) (s : str) : option (list str) :=
  match mg ps s [] (fun _ g => Some g) with
  | Some g => Some g
  | None => match s with [] => None | _ :: t => re_search_groups ps t end
  end.

Definition is_op (c : ascii) : bool := existsb (Ascii.eqb c) ("+-*/" : str).

(** [(\d+)\s*] op [\s*(\d+)] *)
Definition math_pattern (op : rx) : list piece :=
  [Group (RStar is_digit 1); Plain (RStar is_space 0); Plain op;
   Plain (RStar is_space 0); Group (RStar is_digit 1)].

Definition math_patterns : list (list piece) :=
  [math_pattern (RChr is_op); math_pattern (RLit "+"%char); math_pattern (RLit "-"%char);
   math_pattern (RLit "*"%char); math_pattern (RLit "/"%char)].

Definition has_char (c : ascii) (s : str) : bool := existsb (Ascii.eqb c) s.

Definition lift {A} (o : outcome A) : M A := fun s => (o, s).

Section Ocr.

Variable Image : Type.
Variable clock : nat -> Z.
Variable OCR_AVAILABLE : bool.
(** [Image.open(BytesIO(base64.b64decode(s)))]; [None] when either raises. *)
Variable decode_open : str -> option Image.
(** [self.preprocess_image]: it catches its own exceptions and returns an image. *)
Variable preprocess_image : Image -> Image.
(** [pytesseract.image_to_string(processed, config=...)] *)
Variable image_to_string : Image -> outcome str.
(** [int(s)] on a run of decimal digits, [str(n)] of an [int] (both may
    raise at the interpreter's digit limit), and the [str] of [a / b]
    (turned into an [int] when it is whole) for [b != 0]. *)
Variable py_int : str -> outcome Z.
Variable py_str : Z -> outcome str.
Variable true_div_str : Z -> Z -> outcome str.

Definition load_image_from_base64 (base64_string : str) : option Image :=
  if starts_with "data:image" base64_string then
    match split_on ","%char base64_string with
    | _ :: part :: _ => decode_open part
    | _ => None                      (* IndexError, caught *)
    end
  else decode_open base64_string.

Definition solve_text_captcha (image_source : str) : M CaptchaResult :=
  start_time <- time_time clock ;;
  try_except is_exception
    (if negb OCR_AVAILABLE then
       t <- time_time clock ;;
       ret (mkCaptchaResult false "text" None 0%Q (t - start_time)
              (Some ("OCR dependencies not installed" : str)) None)
     else
       match load_image_from_base64 image_source with
       | None =>
           t <- time_time clock ;;
           ret (mkCaptchaResult false "text" None 0%Q (t - start_time)
                  (Some ("Failed to load image" : str)) None)
       | Some image =>
           let processed := preprocess_image image in
           raw <- lift (image_to_string processed) ;;
           let text := strip raw in
           match text with
           | _ :: _ =>
               let text := post_process_text text in
               t <- time_time clock ;;
               ret (mkCaptchaResult true "text" (Some text)
                      (Qmin (inject_Z (Z.of_nat (List.length text)) / 10) 1)
                      (t - start_time) None None)
           | [] =>
               t <- time_time clock ;;
               ret (mkCaptchaResult false "text" None 0%Q (t - start_time)
                      (Some ("No text found" : str)) None)
           end
       end)
    (fun e =>
       t <- time_time clock ;;
       ret (mkCaptchaResult false "text" None 0%Q (t - start_time) (Some (exn_str e)) None)).

(** The operator chosen by the [in] tests on the whole text. *)
Definition op_result (text : str) (a b : Z) : outcome str :=
  if has_char "+"%char text then py_str (a + b)
  else if has_char "-"%char text then py_str (a - b)
  else if has_char "*"%char text then py_str (a * b)
  else if has_char "/"%char text then (if (b =? 0)%Z then py_str 0 else true_div_str a b)
  else py_str (a + b).

(** [for pattern in math_patterns]; the bare [except: continue] catches
    what the body raises; [re.search] on [None] raises outside it. *)
Fixpoint math_loop (patterns : list (list piece)) (text : option str) (conf : Q)
  (start_time : Z) : M CaptchaResult :=
  match patterns with
  | [] =>
      t <- time_time clock ;;
      ret (mkCaptchaResult false "math" None 0%Q (t - start_time)
             (Some ("Could not parse math expression" : str)) None)
  | pattern :: rest =>
      match text with
      | None => raise (OtherException "expected string or bytes-like object, got 'NoneType'")
      | Some text' =>
          match re_search_groups pattern text' with
          | Some (g1 :: g2 :: _) =>
              try_except is_exception
                (a <- lift (py_int g1) ;;
                 b <- lift (py_int g2) ;;
                 sol <- lift (op_result text' a b) ;;
                 t <- time_time clock ;;
                 sa <- lift (py_str a) ;;
                 sb <- lift (py_str b) ;;
                 ret (mkCaptchaResult true "math" (Some sol) (conf * (9 # 10))
                        (t - start_time) None (Some (sa ++ " + " ++ sb))))
                (fun _ => math_loop rest text conf start_time)
          | _ => math_loop rest text conf start_time
          end
      end
  end.

Definition solve_math_captcha (image_source : str) : M CaptchaResult :=
  start_time <- time_time clock ;;
  try_except is_exception
    (text_result <- solve_text_captcha image_source ;;
     if negb (success text_result) then
       t <- time_time clock ;;
       ret (mkCaptchaResult false "math" None 0%Q (t - start_time)
              (Some ("Failed to extract text" : str)) None)
     else math_loop math_patterns (solution text_result) (confidence text_result) start_time)
    (fun e =>
       t <- time_time clock ;;
       ret (mkCaptchaResult false "math" None 0%Q (t - start_time) (Some (exn_str e)) None)).

End Ocr.

End CaptchaSolver.

Module CaptchaSolverFacts.
Import CaptchaSolver.

Definition step_replace (t : str) (p : ascii * str) : str := replace_char (fst p) (snd p) t.

(** What [post_process_text] does to one character that passed the filter. *)
Definition pp_char (c : ascii) : str := fold_left step_replace replacements [c].

(** The characters [post_process_text] can produce. *)
Definition out_char (c : ascii) : bool :=
  let n := nat_of_ascii c in
  ((65 <=? n) && (n <=? 90)) || existsb (Ascii.eqb c) ("234679" : str).

Lemma flat_map_flat_map {A B C} (f : B -> list C) (g : A -> list B) : forall l,
  flat_map f (flat_map g l) = flat_map (fun x => flat_map f (g x)) l.
Proof.
  induction l as [|x l IH]; simpl; [reflexivity|]. rewrite flat_map_app, IH. reflexivity.
Qed.

Lemma fold_replace_flat_map : forall reps t,
  fold_left step_replace reps t = flat_map (fun c => fold_left step_replace reps [c]) t.
Proof.
  induction reps as [|r reps IH]; intros t; cbn [fold_left].
  - induction t as [|c t IHt]; simpl; [reflexivity|]. rewrite <- IHt. reflexivity.
  - rewrite IH.
    change (step_replace t r) with
      (flat_map (fun c => if Ascii.eqb c (fst r) then snd r else [c]) t).
    rewrite flat_map_flat_map. apply flat_map_ext. intros c.
    rewrite (IH (step_replace [c] r)). unfold step_replace, replace_char; simpl.
    rewrite app_nil_r. reflexivity.
Qed.

Lemma post_process_text_eq (text : str) :
  post_process_text text = map upper_ascii (flat_map pp_char (filter is_alnum text)).
Proof.
  unfold post_process_text, pp_char. f_equal.
  apply (fold_replace_flat_map replacements).
Qed.

Ltac all_chars :=
  let c := fresh "c" in
  intros c; destruct c as [[] [] [] [] [] [] [] []]; vm_compute; reflexivity.

Lemma pp_char_table : forall c,
  implb (is_alnum c) (forallb out_char (map upper_ascii (pp_char c))) = true.
Proof. all_chars. Qed.

Lemma out_char_table : forall c,
  implb (out_char c)
    (is_alnum c && str_eqb (pp_char c) [c] && Ascii.eqb (upper_ascii c) c
     && negb (is_op c)) = true.
Proof. all_chars. Qed.

Lemma post_process_out (text : str) : forall c,
  In c (post_process_text text) -> out_char c = true.
Proof.
  intros c Hc. rewrite post_process_text_eq in Hc.
  apply in_map_iff in Hc. destruct Hc as (d & <- & Hd).
  apply in_flat_map in Hd. destruct Hd as (x & Hx & Hd).
  apply filter_In in Hx. destruct Hx as [_ Hx].
  pose proof (pp_char_table x) as T. rewrite Hx in T; simpl in T.
  rewrite forallb_forall in T. apply T, in_map, Hd.
Qed.

Lemma out_char_facts c : out_char c = true ->
  is_alnum c = true /\ pp_char c = [c] /\ upper_ascii c = c /\ is_op c = false.
Proof.
  intros H. pose proof (out_char_table c) as T. rewrite H in T; simpl in T.
  apply andb_prop in T as [T T4]. apply andb_prop in T as [T T3].
  apply andb_prop in T as [T1 T2].
  apply str_eqb_eq in T2. apply Ascii.eqb_eq in T3. apply negb_true_iff in T4. auto.
Qed.

Lemma post_process_fixed : forall u,
  (forall c, In c u -> out_char c = true) -> post_process_text u = u.
Proof.
  intros u Hu. rewrite post_process_text_eq.
  induction u as [|c u IH]; [reflexivity|].
  destruct (out_char_facts c (Hu c (or_introl eq_refl))) as (H1 & H2 & H3 & _).
  simpl. rewrite H1. simpl. rewrite H2. simpl. rewrite H3. f_equal.
  apply IH. intros d Hd. apply Hu. right. exact Hd.
Qed.

(** [post_process_text] only outputs capital letters and the digits
    2, 3, 4, 6, 7 and 9: every other character is removed, 0, 1, 5 and 8
    become O, I, S and B, and lower-case letters are raised.  Applying it
    a second time changes nothing. *)
Theorem post_process_text_normal (text : str) :
  (forall c, In c (post_process_text text) ->
     (65 <= nat_of_ascii c <= 90) \/ In c ("234679" : str)) /\
  post_process_text (post_process_text text) = post_process_text text.
Proof.
  split.
  - intros c Hc. pose proof (post_process_out text c Hc) as H. unfold out_char in H.
    apply orb_prop in H. destruct H as [H|H].
    + left. apply andb_prop in H as [H1 H2].
      apply Nat.leb_le in H1. apply Nat.leb_le in H2. lia.
    + right. apply existsb_exists in H. destruct H as (x & Hx & E).
      apply Ascii.eqb_eq in E. subst x. exact Hx.
  - apply post_process_fixed, post_process_out.
Qed.

Definition op_like (r : rx) : Prop :=
  r = RChr is_op \/ exists c, r = RLit c /\ is_op c = true.

Lemma mg_step {T} p ps s g k (x : T) :
  mg (p :: ps) s g k = Some x ->
  exists s' g', incl s' s /\ mg ps s' g' k = Some x.
Proof.
  intros H. destruct p as [r|r]; simpl in H;
    destruct (m_incl _ _ _ _ _ _ H) as (s' & cap' & H1 & H2 & _); eauto.
Qed.

Lemma mg_op {T} op ps s g k (x : T) :
  op_like op -> mg (Plain op :: ps) s g k = Some x ->
  exists c, In c s /\ is_op c = true.
Proof.
  intros [->|(c & -> & Hc)] H; cbn [mg] in H;
    (destruct s as [|y t]; cbn [m] in H; [discriminate H|]).
  - destruct (is_op y) eqn:E; [|discriminate H]. exists y; split; [left|]; auto.
  - destruct (char_eqb false c y) eqn:E; [|discriminate H].
    apply Ascii.eqb_eq in E. subst y. exists c; split; [left|]; auto.
Qed.

Lemma math_pattern_needs_op {T} op s g k (x : T) :
  op_like op -> mg (math_pattern op) s g k = Some x ->
  exists c, In c s /\ is_op c = true.
Proof.
  intros Hop H. unfold math_pattern in H.
  destruct (mg_step _ _ _ _ _ _ H) as (s1 & g1 & I1 & H1).
  destruct (mg_step _ _ _ _ _ _ H1) as (s2 & g2 & I2 & H2).
  destruct (mg_op _ _ _ _ _ _ Hop H2) as (c & Hc & Ho).
  exists c; split; [apply I1, I2, Hc|exact Ho].
Qed.

Lemma search_needs_op op : forall s g,
  op_like op -> re_search_groups (math_pattern op) s = Some g ->
  exists c, In c s /\ is_op c = true.
Proof.
  induction s as [|y t IH]; intros g Hop H; cbn [re_search_groups] in H;
    (match type of H with context [mg ?a ?b ?c ?d] => destruct (mg a b c d) eqn:E end).
  - eapply math_pattern_needs_op; eauto.
  - discriminate H.
  - eapply math_pattern_needs_op; eauto.
  - destruct (IH g Hop H) as (c & Hc & Ho). exists c; split; [right|]; auto.
Qed.

Lemma math_patterns_op_like : forall p, In p math_patterns ->
  exists op, p = math_pattern op /\ op_like op.
Proof.
  intros p Hp. simpl in Hp.
  repeat destruct Hp as [<-|Hp]; try destruct Hp;
    eexists; (split; [reflexivity|]);
    solve [left; reflexivity | right; eexists; split; [reflexivity|reflexivity]].
Qed.

Lemma no_match_after_post_process raw : forall p,
  In p math_patterns -> re_search_groups p (post_process_text raw) = None.
Proof.
  intros p Hp. destruct (math_patterns_op_like p Hp) as (op & -> & Hop).
  destruct (re_search_groups (math_pattern op) (post_process_text raw)) as [g|] eqn:E;
    [|reflexivity].
  destruct (search_needs_op _ _ _ Hop E) as (c & Hc & Ho).
  destruct (out_char_facts c (post_process_out raw c Hc)) as (_ & _ & _ & Hn).
  congruence.
Qed.

Section Solvers.

Variable Image : Type.
Variable clock : nat -> Z.
Variable OCR_AVAILABLE : bool.
Variable decode_open : str -> option Image.
Variable preprocess_image : Image -> Image.
Variable image_to_string : Image -> outcome str.
Variable py_int : str -> outcome Z.
Variable py_str : Z -> outcome str.
Variable true_div_str : Z -> Z -> outcome str.

Lemma math_loop_no_match : forall pats text conf start s,
  (forall p, In p pats -> re_search_groups p text = None) ->
  exists r s', math_loop clock py_int py_str true_div_str pats (Some text) conf start s
               = (Ok r, s') /\ success r = false.
Proof.
  induction pats as [|p pats IH]; intros text conf start s H; simpl.
  - cbv [bind time_time ret]. do 2 eexists; split; reflexivity.
  - rewrite (H p (or_introl eq_refl)). apply IH. intros q Hq; apply H; right; exact Hq.
Qed.

Lemma solve_text_shape : forall image_source s,
  exists r s', solve_text_captcha Image clock OCR_AVAILABLE decode_open preprocess_image
                 image_to_string image_source s = (Ok r, s') /\
    (success r = true -> exists raw, solution r = Some (post_process_text raw)).
Proof.
  intros src s. unfold solve_text_captcha. cbv [bind time_time try_except ret lift].
  destruct OCR_AVAILABLE;
    [destruct (load_image_from_base64 Image decode_open src) as [img|];
      [destruct (image_to_string (preprocess_image img)) as [raw|e];
        [destruct (strip raw) as [|a l] eqn:Es|]|]|];
    simpl; do 2 eexists; (split; [reflexivity|]); simpl; intros Hs; try discriminate Hs.
  eexists; reflexivity.
Qed.

(** [solve_math_captcha] never reports success: the text it parses is
    the [solution] of [solve_text_captcha], which went through
    [post_process_text] and so holds no [+], [-], [*] or [/], while each
    of the five math patterns needs one of them.  Whatever the OCR reads,
    the result is a failure, and no exception escapes. *)
Theorem solve_math_captcha_never_succeeds image_source s :
  exists r s', solve_math_captcha Image clock OCR_AVAILABLE decode_open preprocess_image
                 image_to_string py_int py_str true_div_str image_source s = (Ok r, s') /\
               success r = false.
Proof.
  unfold solve_math_captcha. cbv [bind time_time try_except ret].
  destruct (solve_text_shape image_source (mkst (st_calls s) (S (st_time s)) (st_trace s)))
    as (r & s1 & E & Hr).
  rewrite E. cbv beta iota. destruct (success r) eqn:Es; cbn [negb].
  - destruct (Hr eq_refl) as [raw Hsol]. rewrite Hsol.
    destruct (math_loop_no_match math_patterns (post_process_text raw) (confidence r)
                (clock (st_time s)) s1 (no_match_after_post_process raw)) as (r2 & s2 & E2 & H2).
    rewrite E2. cbv beta iota. do 2 eexists; split; [reflexivity|exact H2].
  - do 2 eexists; split; reflexivity.
Qed.

(** [solve_text_captcha] tests the OCR text before [post_process_text]:
    a non-blank reading made only of characters that post-processing
    removes gives [success=True] with the empty solution and confidence 0. *)
Theorem solve_text_captcha_empty_solution image_source img raw s :
  OCR_AVAILABLE = true ->
  load_image_from_base64 Image decode_open image_source = Some img ->
  image_to_string (preprocess_image img) = Ok raw ->
  strip raw <> [] -> post_process_text (strip raw) = [] ->
  exists r s', solve_text_captcha Image clock OCR_AVAILABLE decode_open preprocess_image
                 image_to_string image_source s = (Ok r, s') /\
               success r = true /\ solution r = Some [] /\ (confidence r == 0)%Q /\
               error r = None.
Proof.
  intros Ho Hl Hi Hs Hp. unfold solve_text_captcha. cbv [bind time_time try_except ret lift].
  rewrite Ho, Hl; simpl. rewrite Hi.
  destruct (strip raw) as [|a l] eqn:Es; [congruence|]. rewrite Hp.
  do 2 eexists; split; [reflexivity|]. simpl. repeat split.
Qed.

End Solvers.

Definition blank_raw : str := " ?! ".

Lemma solve_text_captcha_empty_solution_witness :
  exists r s', solve_text_captcha unit ticking_clock true (fun _ => Some tt) (fun i => i)
                 (fun _ => Ok blank_raw) "aW1n" st0 = (Ok r, s') /\
               success r = true /\ solution r = Some [] /\ (confidence r == 0)%Q /\
               error r = None.
Proof.
  apply (solve_text_captcha_empty_solution unit ticking_clock true (fun _ => Some tt)
           (fun i => i) (fun _ => Ok blank_raw) "aW1n" tt blank_raw st0);
    [reflexivity|reflexivity|reflexivity|vm_compute; discriminate|vm_compute; reflexivity].
Defined.

End CaptchaSolverFacts.

(** * [rektcaptcha_solver.py] *)

Module RektCaptchaSolver.

Record ReCaptchaResult : Type := mkReCaptchaResult {
  success : bool;
  solution : option str;
  method : str;
  execution_time : Z;
  error : option str;
  metadata : option (list (str * str)) }.

(** The [params] dict of [extract_recaptcha_params]. *)
Record RecaptchaParams : Type := mkRecaptchaParams {
  sitekey : option str;
  type : str;
  action : option str;
  theme : str;
  size : str;
  hl : str;
  enterprise : bool;
  has_callback : bool;
  page_url : str }.

(** [re.search(pattern, html, re.IGNORECASE)] *)
Fixpoint re_search_ic (r : rx) (s : str) : option (option str) :=
  match m true r s None (fun _ cap => Some cap) with
  | Some g => Some g
  | None => match s with [] => None | _ :: t => re_search_ic r t end
  end.

(** [data-sitekey=] Q [(] [^]Q [+)] Q and [sitekey\s*:\s*] Q [(] [^]Q [+)] Q,
    Q the class of the two quote characters. *)
Definition sitekey_patterns : list rx :=
  [ seqs [lits "data-sitekey="; RChr is_quote; RCap (RStar not_quote 1); RChr is_quote];
    seqs [lits "sitekey"; RStar is_space 0; RLit ":"%char; RStar is_space 0;
          RChr is_quote; RCap (RStar not_quote 1); RChr is_quote] ].

(** [needle in haystack] *)
Fixpoint contains (needle hay : str) : bool :=
  CaptchaSolver.starts_with needle hay
  || match hay with [] => false | _ :: t => contains needle t end.

(** [for pattern in patterns: ... if match: params['sitekey'] = match.group(1); break] *)
Fixpoint sitekey_loop (patterns : list rx) (html : str) : option str :=
  match patterns with
  | [] => None
  | pattern :: rest =>
      match re_search_ic pattern html with
      | Some g => g
      | None => sitekey_loop rest html
      end
  end.

Definition invisible_marker : str := ("data-size=" : str) ++ [dq] ++ "invisible" ++ [dq].

Definition extract_recaptcha_params (html page_url : str) : RecaptchaParams :=
  let sk := sitekey_loop sitekey_patterns html in
  if contains invisible_marker html then
    mkRecaptchaParams sk "v2-invisible" None "light" "invisible" "en" false false page_url
  else if contains "grecaptcha.execute" html then
    mkRecaptchaParams sk "v3" None "light" "normal" "en" false false page_url
  else mkRecaptchaParams sk "v2" None "light" "normal" "en" false false page_url.

Fixpoint spaces (n : nat) : str :=
  match n with 0 => [] | S k => " "%char :: spaces k end.

(** The page [solve_from_page] works on: a fixed string, whatever the URL. *)
Definition mock_html : str :=
  nl :: spaces 12 ++ "<html>" ++ nl :: spaces 16
  ++ "<div class=" ++ [dq] ++ "g-recaptcha" ++ [dq] ++ " data-sitekey=" ++ [dq]
  ++ "test_sitekey_123" ++ [dq] ++ "></div>" ++ nl :: spaces 12 ++ "</html>"
  ++ nl :: spaces 12.

(** [not params['sitekey']]: [None] and the empty string are falsy. *)
Definition falsy_str (o : option str) : bool :=
  match o with None | Some [] => true | Some _ => false end.

Definition set_execution_time (r : ReCaptchaResult) (t : Z) : ReCaptchaResult :=
  mkReCaptchaResult (success r) (solution r) (method r) t (error r) (metadata r).

Section Solve.

(** The clock reads whole seconds, so [int(time.time())] is the reading;
    [randint] is the value [random.randint(1000, 9999)] returns. *)
Variable clock : nat -> Z.
Variable randint : Z.

Definition solve_recaptcha_v2 (sitekey page_url : str) : M ReCaptchaResult :=
  start_time <- time_time clock ;;
  try_except is_exception
    (now <- time_time clock ;;
     let token := ("mock_token_" : str) ++ z_str now ++ "_" ++ z_str randint in
     t <- time_time clock ;;
     ret (mkReCaptchaResult true (Some token) "mock" (t - start_time) None
            (Some [("sitekey" : str, sitekey); ("note" : str, "Mock solver for testing" : str)])))
    (fun e =>
       t <- time_time clock ;;
       ret (mkReCaptchaResult false None "unknown" (t - start_time) (Some (exn_str e)) None)).

Definition solve_from_page (page_url : str) : M ReCaptchaResult :=
  start_time <- time_time clock ;;
  try_except is_exception
    (let html := mock_html in
     let params := extract_recaptcha_params html page_url in
     match sitekey params with
     | Some sk =>
         if falsy_str (Some sk) then
           t <- time_time clock ;;
           ret (mkReCaptchaResult false None "unknown" (t - start_time)
                  (Some ("No reCAPTCHA found" : str)) None)
         else
           result <- solve_recaptcha_v2 sk page_url ;;
           t <- time_time clock ;;
           ret (set_execution_time result (t - start_time))
     | None =>
         t <- time_time clock ;;
         ret (mkReCaptchaResult false None "unknown" (t - start_time)
                (Some ("No reCAPTCHA found" : str)) None)
     end)
    (fun e =>
       t <- time_time clock ;;
       ret (mkReCaptchaResult false None "unknown" (t - start_time) (Some (exn_str e)) None)).

End Solve.

End RektCaptchaSolver.

Module RektCaptchaFacts.
Import RektCaptchaSolver.

Fixpoint capfree (r : rx) : bool :=
  match r with
  | RCap _ => false
  | RSeq a b => capfree a && capfree b
  | ROpt a => capfree a
  | _ => true
  end.

Definition suffix (s' s : str) : Prop := exists pre, s = pre ++ s'.

Lemma suffix_refl s : suffix s s.
Proof. exists []; reflexivity. Qed.

Lemma suffix_trans a b c : suffix a b -> suffix b c -> suffix a c.
Proof. intros [p ->] [q ->]. exists (q ++ p). rewrite app_assoc; reflexivity. Qed.

Lemma suffix_skipn j s : suffix (skipn j s) s.
Proof. exists (firstn j s). symmetry; apply firstn_skipn. Qed.

Lemma suffix_tl c s : suffix s (c :: s).
Proof. exists [c]; reflexivity. Qed.

Lemma greedy_try_range {T} : forall i mn (f : nat -> option T) x,
  greedy_try i mn f = Some x -> exists j, mn <= j <= i /\ f j = Some x.
Proof.
  induction i as [|i IH]; intros mn f x H; simpl in H.
  - destruct (0 <? mn) eqn:Lt; [discriminate|]. apply Nat.ltb_ge in Lt.
    destruct (f 0) eqn:E; [|discriminate]. inversion H; subst.
    exists 0; split; [lia|exact E].
  - destruct (S i <? mn) eqn:Lt; [discriminate|]. apply Nat.ltb_ge in Lt.
    destruct (f (S i)) eqn:E.
    + inversion H; subst. exists (S i); split; [lia|exact E].
    + destruct (IH _ _ _ H) as (j & Hj & Hf). exists j; split; [lia|exact Hf].
Qed.

Lemma m_capfree {T} ic (r : rx) : capfree r = true -> forall s cap k (x : T),
  m ic r s cap k = Some x -> exists s', suffix s' s /\ k s' cap = Some x.
Proof.
  induction r as [| c | p | a IHa b IHb | p mn | a IHa | a IHa]; intros Hc s cap k x H;
    cbn [m] in H; simpl in Hc.
  - exists s; split; [apply suffix_refl|exact H].
  - destruct s as [|y t]; [discriminate|]. destruct (char_eqb ic c y); [|discriminate].
    exists t; split; [apply suffix_tl|exact H].
  - destruct s as [|y t]; [discriminate|]. destruct (p y); [|discriminate].
    exists t; split; [apply suffix_tl|exact H].
  - apply andb_prop in Hc as [Ha Hb].
    destruct (IHa Ha _ _ _ _ H) as (s1 & S1 & H1).
    destruct (IHb Hb _ _ _ _ H1) as (s2 & S2 & H2).
    exists s2; split; [eapply suffix_trans; eauto|exact H2].
  - destruct (greedy_try_range _ _ _ _ H) as (j & _ & Hj).
    exists (skipn j s); split; [apply suffix_skipn|exact Hj].
  - destruct (m ic a s cap k) eqn:E.
    + inversion H; subst. apply (IHa Hc _ _ _ _ E).
    + exists s; split; [apply suffix_refl|exact H].
  - discriminate Hc.
Qed.

Lemma m_seq_capfree {T} ic a b s cap k (x : T) :
  capfree a = true -> m ic (RSeq a b) s cap k = Some x ->
  exists s', suffix s' s /\ m ic b s' cap k = Some x.
Proof. intros Ha H. exact (m_capfree ic a Ha _ _ _ _ H). Qed.

Lemma run_length_le p : forall s, run_length p s <= List.length s.
Proof. induction s as [|c s IH]; simpl; [lia|]. destruct (p c); simpl; lia. Qed.

Lemma run_length_firstn p : forall s j c,
  j <= run_length p s -> In c (firstn j s) -> p c = true.
Proof.
  induction s as [|y s IH]; intros [|j] c Hj Hc; simpl in *; try contradiction.
  destruct (p y) eqn:E; [|lia].
  destruct Hc as [<-|Hc]; [exact E|]. apply (IH j); [lia|exact Hc].
Qed.

Lemma m_cap_star {T} ic p mn s cap k (x : T) :
  m ic (RCap (RStar p mn)) s cap k = Some x ->
  exists j, mn <= j <= run_length p s /\ k (skipn j s) (Some (firstn j s)) = Some x.
Proof.
  intros H. cbn [m] in H. destruct (greedy_try_range _ _ _ _ H) as (j & Hj & Hf).
  exists j; split; [exact Hj|].
  pose proof (run_length_le p s).
  rewrite length_skipn in Hf.
  replace (List.length s - (List.length s - j)) with j in Hf by lia. exact Hf.
Qed.

Lemma m_seq_eq {T} ic a b s cap (k : str -> option str -> option T) :
  m ic (RSeq a b) s cap k = m ic a s cap (fun s' cap' => m ic b s' cap' k).
Proof. reflexivity. Qed.

Ltac peel H :=
  let s' := fresh "s" in let Sf := fresh "Sf" in
  apply m_seq_capfree in H; [destruct H as (s' & Sf & H)|reflexivity].

(** A match of a sitekey pattern captures a non-empty run of non-quote
    characters of the text. *)
Lemma sitekey_pattern_capture : forall p, In p sitekey_patterns ->
  forall s g, m true p s None (fun _ cap => Some cap) = Some g ->
  exists k, g = Some k /\ k <> [] /\ (forall c, In c k -> is_quote c = false) /\
            exists pre post, s = pre ++ k ++ post.
Proof.
  intros p Hp s g H. cbn [sitekey_patterns In] in Hp.
  destruct Hp as [<-|[<-|[]]]; cbn [seqs] in H; repeat peel H;
    rewrite m_seq_eq in H; apply m_cap_star in H; destruct H as (j & Hj & H);
    (apply m_capfree in H; [|reflexivity]); destruct H as (?sl & _ & H);
    injection H as <-;
    (match goal with |- context [firstn j ?sn] =>
       assert (Hsuf : suffix sn s) by eauto 10 using suffix_trans, suffix_refl;
       destruct Hsuf as (pre & Hpre);
       exists (firstn j sn); split; [reflexivity|]; split;
       [ intros E; pose proof (run_length_le not_quote sn);
         assert (Hl : List.length (firstn j sn) = j) by (rewrite length_firstn; lia);
         rewrite E in Hl; simpl in Hl; lia
       | split;
         [ intros c Hc; apply negb_true_iff;
           exact (run_length_firstn not_quote sn j c (proj2 Hj) Hc)
         | exists pre, (skipn j sn); rewrite firstn_skipn; exact Hpre ] ]
     end).
Qed.

Lemma re_search_ic_suffix r : forall s g,
  re_search_ic r s = Some g ->
  exists s0, suffix s0 s /\ m true r s0 None (fun _ cap => Some cap) = Some g.
Proof.
  induction s as [|c t IH]; intros g H; cbn [re_search_ic] in H;
    (destruct (m true r _ None (fun _ cap => Some cap)) eqn:E;
     [inversion H; subst; eexists; split; [apply suffix_refl|exact E]|]).
  - discriminate H.
  - destruct (IH g H) as (s0 & S0 & H0). exists s0; split; [|exact H0].
    eapply suffix_trans; [exact S0|apply suffix_tl].
Qed.

Lemma sitekey_loop_some : forall pats html k,
  sitekey_loop pats html = Some k ->
  exists p, In p pats /\ re_search_ic p html = Some (Some k).
Proof.
  induction pats as [|p ps IH]; intros html k H; simpl in H; [discriminate|].
  destruct (re_search_ic p html) as [g|] eqn:E.
  - subst g. exists p; split; [left; reflexivity|exact E].
  - destruct (IH _ _ H) as (q & Hq & Hs). exists q; split; [right|]; assumption.
Qed.

Lemma sitekey_extract html page_url :
  sitekey (extract_recaptcha_params html page_url) = sitekey_loop sitekey_patterns html.
Proof.
  unfold extract_recaptcha_params.
  destruct (contains invisible_marker html); [reflexivity|].
  destruct (contains "grecaptcha.execute" html); reflexivity.
Qed.

(** The sitekey [extract_recaptcha_params] reports is a non-empty piece of
    the page that holds no quote character: the capturing group of the
    first pattern that matches (case-insensitively). *)
Theorem extract_sitekey_substring html page_url k :
  sitekey (extract_recaptcha_params html page_url) = Some k ->
  k <> [] /\ (forall c, In c k -> is_quote c = false) /\
  exists pre post, html = pre ++ k ++ post.
Proof.
  intros H. rewrite sitekey_extract in H.
  destruct (sitekey_loop_some _ _ _ H) as (p & Hp & Hs).
  destruct (re_search_ic_suffix _ _ _ Hs) as (s0 & (pre0 & ->) & H0).
  destruct (sitekey_pattern_capture p Hp _ _ H0) as (k' & Hk & Hne & Hq & pre & post & E).
  injection Hk as <-. split; [exact Hne|]. split; [exact Hq|].
  exists (pre0 ++ pre), post. rewrite E, <- app_assoc. reflexivity.
Qed.

Definition upper_case_page : str :=
  ("<div DATA-SITEKEY=" : str) ++ [dq] ++ "AbC" ++ [dq] ++ "></div>".

Lemma extract_sitekey_substring_witness :
  sitekey (extract_recaptcha_params upper_case_page "https://example.com") = Some ("AbC" : str) /\
  ("AbC" : str) <> [] /\ (forall c, In c ("AbC" : str) -> is_quote c = false) /\
  exists pre post, upper_case_page = pre ++ "AbC" ++ post.
Proof.
  assert (H : sitekey (extract_recaptcha_params upper_case_page "https://example.com")
              = Some ("AbC" : str)) by (vm_compute; reflexivity).
  split; [exact H|].
  exact (extract_sitekey_substring upper_case_page "https://example.com" "AbC" H).
Defined.

Lemma mock_html_sitekey :
  sitekey_loop sitekey_patterns mock_html = Some ("test_sitekey_123" : str).
Proof. vm_compute. reflexivity. Qed.

Lemma solve_from_page_eq clock randint page_url s :
  solve_from_page clock randint page_url s =
  (Ok (mkReCaptchaResult true
         (Some (("mock_token_" : str) ++ z_str (clock (S (S (st_time s)))) ++ "_"
                ++ z_str randint))
         "mock" (clock (S (S (S (S (st_time s))))) - clock (st_time s))%Z None
         (Some [("sitekey" : str, "test_sitekey_123" : str);
                ("note" : str, "Mock solver for testing" : str)])),
   mkst (st_calls s) (S (S (S (S (S (st_time s)))))) (st_trace s)).
Proof.
  cbv [solve_from_page bind try_except time_time ret].
  rewrite sitekey_extract, mock_html_sitekey. reflexivity.
Qed.

(** [solve_from_page] never looks at the page: it parses a fixed HTML
    string instead of fetching [page_url], so the URL has no influence on
    the result, no request is made, and the mock solver always reports
    success with the sitekey test_sitekey_123. *)
Theorem solve_from_page_ignores_url clock randint page_url page_url' s :
  solve_from_page clock randint page_url s = solve_from_page clock randint page_url' s /\
  exists r s', solve_from_page clock randint page_url s = (Ok r, s') /\
    success r = true /\ method r = "mock" /\ error r = None /\
    metadata r = Some [("sitekey" : str, "test_sitekey_123" : str);
                       ("note" : str, "Mock solver for testing" : str)] /\
    st_calls s' = st_calls s /\ st_trace s' = st_trace s.
Proof.
  rewrite !solve_from_page_eq. split; [reflexivity|].
  do 2 eexists; split; [reflexivity|]. repeat split.
Qed.

End RektCaptchaFacts.

(** * The package: [src/src/__init__.py] and the CLI [src/src/__main__.py] *)

Module PackageCli.

(** What importing a sibling module gives: its top-level names, a
    [ModuleNotFoundError] (or another [ImportError] raised while it runs),
    or another exception raised while it runs. *)
Inductive import_result : Type :=
| Loaded (names : list str)
| NotFound
| Failed (e : exn).

Inductive pexn : Type :=
| ImportError (msg : str)
| Raised (e : exn).

Inductive res (A : Type) : Type :=
| POk (a : A)
| PExc (e : pexn).
Arguments POk {A} a.
Arguments PExc {A} e.

(** Running module code: the names bound in the package namespace so far
    (the most recent first) are the state. *)
Definition PM (A : Type) : Type := list str -> res A * list str.

Definition pret {A} (a : A) : PM A := fun ns => (POk a, ns).
Definition praise {A} (e : pexn) : PM A := fun ns => (PExc e, ns).
Definition pbind {A B} (c : PM A) (f : A -> PM B) : PM B :=
  fun ns => match c ns with
            | (POk a, ns') => f a ns'
            | (PExc e, ns') => (PExc e, ns')
            end.

Notation "c ;;> k" := (pbind c (fun _ => k)) (at level 61, right associativity).

Definition bind_name (n : str) : PM unit := fun ns => (POk tt, n :: ns).

Fixpoint binds (names : list string) : PM unit :=
  match names with
  | [] => pret tt
  | n :: rest => bind_name n ;;> binds rest
  end.

(** [from .module import n1, n2, ...]: the submodule is bound as an
    attribute of the package, then each name in turn. *)
Fixpoint bind_names (mnames : list str) (names : list string) : PM unit :=
  match names with
  | [] => pret tt
  | n :: rest =>
      if existsb (str_eqb n) mnames then bind_name n ;;> bind_names mnames rest
      else praise (ImportError ("cannot import name '" ++ n ++ "'"))
  end.

Definition from_import (sub : import_result) (module : str) (names : list string) : PM unit :=
  match sub with
  | NotFound => praise (ImportError ("No module named '" ++ module ++ "'"))
  | Failed e => praise (Raised e)
  | Loaded mnames => bind_name module ;;> bind_names mnames names
  end.

(** [try: c  except ImportError: h] *)
Definition try_import_error (c h : PM unit) : PM unit :=
  fun ns => match c ns with
            | (PExc (ImportError _), ns') => h ns'
            | r => r
            end.

Definition init_py (ab_links cap rekt : import_result) : PM unit :=
  binds ["__version__"; "__author__"; "__email__"; "__license__"; "__copyright__";
         "__all__"; "version_info"] ;;>
  try_import_error
    (from_import ab_links "ab_links_solver" ["EnhancedABLinksSolver"; "SolveResult"] ;;>
     from_import cap "captcha_solver" ["CaptchaSolver"; "CaptchaResult"] ;;>
     from_import rekt "rektcaptcha_solver"
       ["RektCaptchaSolver"; "ReCaptchaResult"; "UniversalReCaptchaSolver"] ;;>
     binds ["create_solver"; "get_version"; "get_version_info"])
    (binds ["EnhancedABLinksSolver"; "SolveResult"; "CaptchaSolver"; "CaptchaResult";
            "RektCaptchaSolver"; "ReCaptchaResult"; "UniversalReCaptchaSolver"]) ;;>
  binds ["logging"; "logger"].

(** The modules in the package directory besides [__init__]. *)
Definition package_files : list str :=
  map list_ascii_of_string ["__main__"; "captcha_solver"].

(** [from . import n1, n2, ...]: an attribute of the package, or else a
    submodule of that name. *)
Fixpoint from_package_import (ns : list str) (names : list string) : res unit :=
  match names with
  | [] => POk tt
  | n :: rest =>
      if existsb (str_eqb n) ns || existsb (str_eqb n) package_files
      then from_package_import ns rest
      else PExc (ImportError ("cannot import name '" ++ n ++ "' from 'src'"))
  end.

(** [python -m src]: the package is imported, then [__main__] runs its
    imports; [POk tt] means it reaches [main()]. *)
Definition run_cli (ab_links cap rekt : import_result) : res unit :=
  match init_py ab_links cap rekt [] with
  | (PExc e, _) => PExc e
  | (POk _, ns) =>
      from_package_import (map list_ascii_of_string ["sys"; "argparse"] ++ ns)
        ["create_solver"; "EnhancedABLinksSolver"; "UniversalReCaptchaSolver"; "get_version"]
  end.

(** The top-level names of [rektcaptcha_solver.py]. *)
Definition rektcaptcha_names : list str :=
  map list_ascii_of_string
  ["re"; "time"; "random"; "logging"; "Optional"; "Dict"; "Any"; "dataclass";
   "logger"; "ReCaptchaResult"; "RektCaptchaSolver"].

End PackageCli.

Module PackageCliFacts.
Import PackageCli.

(** With a [rektcaptcha_solver] that did define [UniversalReCaptchaSolver],
    the CLI would get as far as [main()]. *)
Example run_cli_with_universal :
  run_cli (Loaded (map list_ascii_of_string ["EnhancedABLinksSolver"; "SolveResult"]))
          (Loaded (map list_ascii_of_string ["CaptchaSolver"; "CaptchaResult"]))
          (Loaded (rektcaptcha_names ++ [list_ascii_of_string "UniversalReCaptchaSolver"])) = POk tt.
Proof. vm_compute; reflexivity. Qed.

Ltac crunch_imports :=
  repeat (cbn [run_cli init_py pbind pret binds bind_name try_import_error
               from_import praise bind_names fst snd];
          try match goal with
              | |- context [existsb (str_eqb ?n) ?l] =>
                  is_var l; let E := fresh "E" in destruct (existsb (str_eqb n) l) eqn:E
              end).

(** The module [__main__] imports [create_solver] from the package, but
    [__init__] binds it only after all three sibling imports succeed, and
    [rektcaptcha_solver] has no [UniversalReCaptchaSolver]: so the CLI
    never reaches [main()]. When [__init__] itself completes (it falls
    back to its placeholder classes), the error is the [ImportError] for
    [create_solver]. *)
Theorem cli_never_reaches_main ab_links cap rekt :
  (forall names, rekt = Loaded names ->
     ~ In (list_ascii_of_string "UniversalReCaptchaSolver") names) ->
  run_cli ab_links cap rekt <> POk tt /\
  (forall ns, init_py ab_links cap rekt [] = (POk tt, ns) ->
     ~ In (list_ascii_of_string "create_solver") ns /\
     run_cli ab_links cap rekt =
       PExc (ImportError ("cannot import name 'create_solver' from 'src'"))).
Proof.
  intros Hrekt.
  destruct ab_links as [abn| |e1]; destruct cap as [cn| |e2]; destruct rekt as [rn| |e3];
    unfold run_cli; crunch_imports;
    try match goal with
        | E : existsb (str_eqb ?u) rn = true |- _ =>
            constr_eq u (list_ascii_of_string "UniversalReCaptchaSolver");
            exfalso; apply (Hrekt rn eq_refl);
            apply existsb_exists in E; destruct E as [x [Hx Hq]];
            apply str_eqb_eq in Hq; subst x; exact Hx
        end.
  all: split;
    [ try discriminate; vm_compute; discriminate
    | intros ns Hns; cbv [pret] in Hns;
      first
        [ discriminate Hns
        | injection Hns as <-; split;
          [ vm_compute; intros H; repeat destruct H as [H|H]; solve [discriminate H | exact H]
          | vm_compute; reflexivity ] ] ].
Qed.

Definition ab_links_names : list str :=
  map list_ascii_of_string ["EnhancedABLinksSolver"; "SolveResult"].
Definition captcha_names : list str :=
  map list_ascii_of_string ["CaptchaSolver"; "CaptchaResult"].

Lemma cli_never_reaches_main_witness :
  (forall names, Loaded rektcaptcha_names = Loaded names ->
     ~ In (list_ascii_of_string "UniversalReCaptchaSolver") names) /\
  run_cli (Loaded ab_links_names) (Loaded captcha_names) (Loaded rektcaptcha_names) <> POk tt.
Proof.
  assert (Hr : forall names, Loaded rektcaptcha_names = Loaded names ->
     ~ In (list_ascii_of_string "UniversalReCaptchaSolver") names).
  { intros names Heq; injection Heq as <-; vm_compute; intros H;
    repeat destruct H as [H|H]; solve [discriminate H | exact H]. }
  split; [exact Hr|].
  exact (proj1 (cli_never_reaches_main (Loaded ab_links_names) (Loaded captcha_names)
                  (Loaded rektcaptcha_names) Hr)).
Defined.

End PackageCliFacts.

(** * More facts on [src/ab_links_solver.py] *)

Module AbLinksFacts.

Lemma loop_first_other net mr url ar : forall j a rem s e,
  a + rem = mr -> j < rem ->
  (forall k, k < j -> attempt_fails (net (st_calls s + k) url ar) = true) ->
  net (st_calls s + j) url ar = NetRaise e -> is_request_exception e = false ->
  safe_request_loop net mr url ar a rem s =
  (Exc e, mkst (st_calls s + S j) (st_time s)
            (st_trace s ++ retry_trace url ar a j ++ [EGet url ar 30])).
Proof.
  induction j as [|j IH]; intros a rem s e Hm Hj Hf Hn Hre;
    (destruct rem as [|rem]; [lia|]); rewrite loop_step; cbv zeta.
  - rewrite Nat.add_0_r in Hn. rewrite Hn, Hre.
    unfold after_get; simpl. repeat f_equal; lia.
  - assert (Ha : (a =? mr - 1) = false) by (apply Nat.eqb_neq; lia).
    assert (Hf0 := Hf 0 ltac:(lia)); rewrite Nat.add_0_r in Hf0.
    assert (Hrec : safe_request_loop net mr url ar (S a) rem
              (mkst (st_calls (after_get url ar s)) (st_time (after_get url ar s))
                    (st_trace (after_get url ar s) ++ [ESleep (2 ^ Z.of_nat a)])) =
            (Exc e, mkst (st_calls s + S (S j)) (st_time s)
              (st_trace s ++ retry_trace url ar a (S j) ++ [EGet url ar 30]))).
    { rewrite (IH (S a) rem _ e); simpl.
      - unfold after_get, retry_trace; simpl.
        replace (S (st_calls s + S j)) with (st_calls s + S (S j)) by lia.
        rewrite <- !app_assoc; reflexivity.
      - lia.
      - lia.
      - intros k Hk. unfold after_get; simpl.
        replace (S (st_calls s + k)) with (st_calls s + S k) by lia. apply Hf; lia.
      - unfold after_get; simpl.
        replace (S (st_calls s + j)) with (st_calls s + S j) by lia. exact Hn.
      - exact Hre. }
    destruct (net (st_calls s) url ar) as [r0|e0]; simpl in Hf0.
    + destruct (resp_ok r0); [discriminate|]. rewrite Ha. exact Hrec.
    + rewrite Hf0, Ha. exact Hrec.
Qed.

(** [safe_request] retries only on a [RequestException]: an exception of
    another kind raised by attempt [j] leaves it at once, after [j+1]
    session calls and the back-off sleeps of the [j] failed attempts
    before it, with no retry and no sleep after it. *)
Theorem safe_request_propagates_other net mr url ar s j e :
  j < mr ->
  (forall k, k < j -> attempt_fails (net (st_calls s + k) url ar) = true) ->
  net (st_calls s + j) url ar = NetRaise e -> is_request_exception e = false ->
  safe_request net mr url ar s =
  (Exc e, mkst (st_calls s + S j) (st_time s)
            (st_trace s ++ retry_trace url ar 0 j ++ [EGet url ar 30])).
Proof.
  intros Hj Hf Hn Hre. unfold safe_request.
  apply (loop_first_other net mr url ar j 0 mr s e); auto.
Qed.

(** The first call times out, the following ones raise [boom]. *)
Definition timeout_then_boom : nat -> str -> bool -> net_outcome :=
  fun n _ _ => if n =? 0 then NetRaise (RequestException "Read timed out")
               else NetRaise boom.

Lemma safe_request_propagates_other_witness :
  1 < 3 /\
  (forall k, k < 1 -> attempt_fails (timeout_then_boom (st_calls st0 + k) adfly_url true) = true) /\
  timeout_then_boom (st_calls st0 + 1) adfly_url true = NetRaise boom /\
  is_request_exception boom = false /\
  safe_request timeout_then_boom 3 adfly_url true st0 =
  (Exc boom, mkst 2 0 [EGet adfly_url true 30; ESleep 1; EGet adfly_url true 30]).
Proof.
  assert (Hf : forall k, k < 1 ->
            attempt_fails (timeout_then_boom (st_calls st0 + k) adfly_url true) = true)
    by (intros k Hk; destruct k; [reflexivity|lia]).
  refine (conj _ (conj Hf (conj eq_refl (conj eq_refl _)))); [lia|].
  exact (safe_request_propagates_other timeout_then_boom 3 adfly_url true st0 1 boom
           ltac:(lia) Hf eq_refl eq_refl).
Defined.

(** For a URL of no known service [solve_single] makes no session call
    and does not sleep: it only reads the clock twice and returns the
    failed result with [error = None]. *)
Theorem solve_single_unknown_offline net clock mr url s :
  detect_service url = unknown ->
  solve_single net clock mr url s =
  (Ok (mkSolveResult url unknown None false None
         (Some (clock (S (st_time s)) - clock (st_time s))%Z) None),
   mkst (st_calls s) (S (S (st_time s))) (st_trace s)).
Proof.
  intros Hu. rewrite solve_single_eq. unfold after_dispatch, base_result.
  rewrite Hu. reflexivity.
Qed.

Lemma solve_single_unknown_offline_witness :
  detect_service unknown_url = unknown /\
  solve_single boom_net ticking_clock 3 unknown_url st0 =
  (Ok (mkSolveResult unknown_url unknown None false None (Some 1%Z) None), mkst 0 2 []).
Proof.
  assert (Hu : detect_service unknown_url = unknown) by (vm_compute; reflexivity).
  split; [exact Hu|].
  exact (solve_single_unknown_offline boom_net ticking_clock 3 unknown_url st0 Hu).
Defined.

(** Whatever the network does, [solve_single] reads the clock exactly
    twice and returns a result for the input URL and its detected
    service, successful exactly when a solved URL is set, and failed when
    it carries an error. *)
Theorem solve_single_result_shape net clock mr url s :
  exists r s', solve_single net clock mr url s = (Ok r, s') /\
    original_url r = url /\ service r = detect_service url /\
    (success r = true <-> solved_url r <> None) /\
    (error r <> None -> success r = false) /\
    metadata r = None /\ st_time s' = S (S (st_time s)).
Proof.
  rewrite solve_single_eq.
  pose proof (dispatch_keeps net mr (detect_service url) url (tick s)) as Hk.
  destruct (dispatch net mr (detect_service url) url (tick s)) as [[su|e] s2];
    simpl in Hk; do 2 eexists; (split; [reflexivity|]); simpl.
  - rewrite Hk. destruct su; repeat split; try reflexivity; try congruence.
  - rewrite Hk. repeat split; try reflexivity; try congruence.
Qed.

Lemma extract_linkvertise_new_url net mr url s u s' :
  extract_linkvertise_link net mr url s = (Ok (Some u), s') -> u <> url.
Proof.
  unfold extract_linkvertise_link, try_except, bind.
  destruct (safe_request net mr url true s) as [[[r|]|e] s1]; simpl; intros H.
  - destruct (resp_ok r && negb (str_eqb (resp_url r) url)) eqn:E; [|discriminate].
    injection H as <- _. apply andb_prop in E as [_ E]. apply negb_true_iff in E.
    intros Heq; subst url. assert (str_eqb (resp_url r) (resp_url r) = true)
      by (apply str_eqb_eq; reflexivity). congruence.
  - discriminate.
  - discriminate.
Qed.

(** Unlike the shortconnect branch, a linkvertise URL is never reported
    as solved to itself: a solved URL differs from the input. *)
Theorem solve_single_linkvertise_moves net clock mr url s r s' :
  detect_service url = "linkvertise" ->
  solve_single net clock mr url s = (Ok r, s') -> solved_url r <> Some url.
Proof.
  intros Hl H. rewrite solve_single_eq, Hl, dispatch_linkvertise in H.
  destruct (extract_linkvertise_link net mr url (tick s)) as [[[u|]|e] s2] eqn:E;
    injection H as <- _; simpl; try discriminate.
  intros Hu; injection Hu as ->. exact (extract_linkvertise_new_url _ _ _ _ _ _ E eq_refl).
Qed.

Definition lv_result : SolveResult :=
  mkSolveResult linkvertise_url "linkvertise" (Some (resp_url final_response)) true None
    (Some 1%Z) None.

Lemma solve_single_linkvertise_moves_witness :
  detect_service linkvertise_url = "linkvertise" /\
  solve_single flaky_net ticking_clock 3 linkvertise_url st0 =
    (Ok lv_result,
     mkst 2 2 [EGet linkvertise_url true 30; ESleep 1; EGet linkvertise_url true 30]) /\
  solved_url lv_result <> Some linkvertise_url.
Proof.
  assert (Hl : detect_service linkvertise_url = "linkvertise") by (vm_compute; reflexivity).
  assert (Hs : solve_single flaky_net ticking_clock 3 linkvertise_url st0 =
    (Ok lv_result,
     mkst 2 2 [EGet linkvertise_url true 30; ESleep 1; EGet linkvertise_url true 30]))
    by (vm_compute; reflexivity).
  refine (conj Hl (conj Hs _)).
  exact (solve_single_linkvertise_moves flaky_net ticking_clock 3 linkvertise_url st0 _ _ Hl Hs).
Defined.

Lemma char_eqb_exact c x : char_eqb false c x = true -> x = c.
Proof. unfold char_eqb. intros H. apply Ascii.eqb_eq in H. congruence. Qed.

Lemma m_lits_prefix {T} : forall (w : str) r s cap (k : str -> option str -> option T) x,
  w <> [] -> m false (RSeq (lits w) r) s cap k = Some x ->
  exists t, s = w ++ t /\ m false r t cap k = Some x.
Proof.
  induction w as [|c w IH]; intros r s cap k x Hw H; [congruence|].
  destruct w as [|c' w'].
  - cbn [lits m] in H. destruct s as [|y t]; [discriminate|].
    destruct (char_eqb false c y) eqn:E; [|discriminate].
    apply char_eqb_exact in E; subst y. exists t; split; [reflexivity|exact H].
  - change (lits (c :: c' :: w')) with (RSeq (RLit c) (lits (c' :: w'))) in H.
    cbn [m] in H. destruct s as [|y t]; [discriminate|].
    destruct (char_eqb false c y) eqn:E; [|discriminate].
    apply char_eqb_exact in E; subst y.
    destruct (IH r t cap k x ltac:(discriminate) H) as (t' & -> & H').
    exists t'; split; [reflexivity|exact H'].
Qed.

Lemma m_opt_seq {T} ic a b s cap (k : str -> option str -> option T) x :
  m ic (RSeq (ROpt a) b) s cap k = Some x ->
  m ic (RSeq a b) s cap k = Some x \/ m ic b s cap k = Some x.
Proof.
  cbn [m]. destruct (m ic a s cap (fun s' cap' => m ic b s' cap' k)) eqn:E; intros H.
  - left. congruence.
  - right. exact H.
Qed.

Lemma m_cap_eq {T} ic a s cap (k : str -> option str -> option T) :
  m ic (RCap a) s cap k =
  m ic a s cap (fun s' _ => k s' (Some (firstn (List.length s - List.length s') s))).
Proof. reflexivity. Qed.

Lemma firstn_app_length (l1 l2 : str) : firstn (List.length l1) (l1 ++ l2) = l1.
Proof. induction l1 as [|c l1 IH]; simpl; [reflexivity|]. rewrite IH; reflexivity. Qed.

(** What [url_pattern] captures starts with its scheme. *)
Lemma url_pattern_capture s g :
  m false url_pattern s None (fun _ cap => Some cap) = Some g ->
  exists u rest, g = Some u /\
    (u = list_ascii_of_string "http://" ++ rest \/ u = list_ascii_of_string "https://" ++ rest).
Proof.
  unfold url_pattern. cbn [seqs]. rewrite m_cap_eq. intros H.
  apply m_lits_prefix in H; [|discriminate]. destruct H as (t & Hs & H).
  assert (Hend : forall (p : str) t', s = p ++ t' ->
            m false (RStar url_char 1) t' None
              (fun s' _ => Some (Some (firstn (List.length s - List.length s') s))) = Some g ->
            exists pre, g = Some (p ++ pre)).
  { intros p t' Hp Hm.
    apply (RektCaptchaFacts.m_capfree false (RStar url_char 1) eq_refl) in Hm.
    destruct Hm as (s' & (pre & ->) & Hm). injection Hm as <-. exists pre.
    rewrite Hp, app_assoc, length_app.
    replace (List.length (p ++ pre) + List.length s' - List.length s')
      with (List.length (p ++ pre)) by lia.
    rewrite firstn_app_length. reflexivity. }
  apply m_opt_seq in H. destruct H as [H|H].
  - change (RLit "s"%char) with (lits "s") in H.
    apply m_lits_prefix in H; [|discriminate]. destruct H as (t1 & -> & H).
    apply m_lits_prefix in H; [|discriminate]. destruct H as (t2 & -> & H).
    destruct (Hend (list_ascii_of_string "https://") t2) as (pre & Hg);
      [rewrite Hs; reflexivity|exact H|].
    exists (list_ascii_of_string "https://" ++ pre), pre. split; [exact Hg|right; reflexivity].
  - apply m_lits_prefix in H; [|discriminate]. destruct H as (t2 & -> & H).
    destruct (Hend (list_ascii_of_string "http://") t2) as (pre & Hg);
      [rewrite Hs; reflexivity|exact H|].
    exists (list_ascii_of_string "http://" ++ pre), pre. split; [exact Hg|left; reflexivity].
Qed.

Lemma re_search_url_scheme : forall s u,
  re_search url_pattern s = Some (Some u) ->
  exists rest, u = list_ascii_of_string "http://" ++ rest \/
               u = list_ascii_of_string "https://" ++ rest.
Proof.
  induction s as [|c t IH]; intros u H; cbn [re_search] in H;
    (destruct (m false url_pattern _ None (fun _ cap => Some cap)) as [g|] eqn:E;
     [injection H as ->;
      destruct (url_pattern_capture _ _ E) as (u' & rest & Hg & Hr);
      injection Hg as <-; exists rest; exact Hr|]).
  - discriminate H.
  - exact (IH u H).
Qed.

Lemma adfly_loop_scheme : forall patterns html u,
  adfly_patterns_loop patterns html = Some u ->
  exists rest, u = list_ascii_of_string "http://" ++ rest \/
               u = list_ascii_of_string "https://" ++ rest.
Proof.
  induction patterns as [|p ps IH]; intros html u H; simpl in H; [discriminate|].
  destruct (re_search p html) as [[ysmm|]|]; [|exact (IH _ _ H)|exact (IH _ _ H)].
  destruct (re_search url_pattern (descramble ysmm)) as [[v|]|] eqn:E2;
    [|exact (IH _ _ H)|exact (IH _ _ H)].
  injection H as <-. exact (re_search_url_scheme _ _ E2).
Qed.

Lemma extract_adfly_scheme net mr url s u s' :
  extract_adfly_link net mr url s = (Ok (Some u), s') ->
  exists rest, u = list_ascii_of_string "http://" ++ rest \/
               u = list_ascii_of_string "https://" ++ rest.
Proof.
  unfold extract_adfly_link, try_except, bind.
  destruct (safe_request net mr url false s) as [[[r|]|e] s1]; simpl; intros H;
    try discriminate.
  destruct (resp_ok r); simpl in H; [|discriminate].
  injection H as H _. exact (adfly_loop_scheme ysmm_patterns (text r) u H).
Qed.

(** A URL the AdFly strategy (used for adfly and gyanilinks URLs) reports
    as solved always starts with [http://] or [https://]. *)
Theorem solve_single_adfly_scheme net clock mr url s r s' u :
  In (detect_service url) (map list_ascii_of_string ["adfly"; "gyanilinks"]) ->
  solve_single net clock mr url s = (Ok r, s') -> solved_url r = Some u ->
  exists rest, u = list_ascii_of_string "http://" ++ rest \/
               u = list_ascii_of_string "https://" ++ rest.
Proof.
  intros Hin H Hu. rewrite solve_single_eq in H.
  assert (Hd : dispatch net mr (detect_service url) url =
               extract_adfly_link net mr url)
    by (simpl in Hin; destruct Hin as [<-|[<-|[]]]; reflexivity).
  rewrite Hd in H.
  destruct (extract_adfly_link net mr url (tick s)) as [[[v|]|e] s2] eqn:E;
    injection H as <- _; simpl in Hu; try discriminate.
  injection Hu as ->. exact (extract_adfly_scheme _ _ _ _ _ _ E).
Qed.

(** An AdFly page whose [ysmm] token descrambles to spaces followed by
    [http://a]. *)
Definition ysmm_page : str := "<script>var ysmm = 'h t t p : / / a';</script>".

Definition ysmm_net : nat -> str -> bool -> net_outcome :=
  fun _ u _ => NetResponse (mkResponse 200 u ysmm_page).

Definition adfly_result : SolveResult :=
  mkSolveResult adfly_url "adfly" (Some (list_ascii_of_string "http://a")) true None
    (Some 1%Z) None.

Lemma solve_single_adfly_scheme_witness :
  In (detect_service adfly_url) (map list_ascii_of_string ["adfly"; "gyanilinks"]) /\
  solve_single ysmm_net ticking_clock 3 adfly_url st0 =
    (Ok adfly_result, mkst 1 2 [EGet adfly_url false 30]) /\
  solved_url adfly_result = Some (list_ascii_of_string "http://a") /\
  exists rest, list_ascii_of_string "http://a" = list_ascii_of_string "http://" ++ rest \/
               list_ascii_of_string "http://a" = list_ascii_of_string "https://" ++ rest.
Proof.
  assert (Hin : In (detect_service adfly_url) (map list_ascii_of_string ["adfly"; "gyanilinks"]))
    by (vm_compute; left; reflexivity).
  assert (Hs : solve_single ysmm_net ticking_clock 3 adfly_url st0 =
                 (Ok adfly_result, mkst 1 2 [EGet adfly_url false 30]))
    by (vm_compute; reflexivity).
  refine (conj Hin (conj Hs (conj eq_refl _))).
  exact (solve_single_adfly_scheme ysmm_net ticking_clock 3 adfly_url st0 _ _ _ Hin Hs eq_refl).
Defined.

End AbLinksFacts.
